(** * Static code analyzer (code_analyzer.py): model and properties

    The analyzer reads a Python file, walks its syntax tree with
    [PepAnalyzer] to collect per-line names and default-value flags, and
    then runs twelve checks (S001 .. S012) on every non-blank line.

    Modelling choices.
    - A Python [str] is the list of its characters; a character is a code
      point below 256 (type [ascii]).  [len] is [length], [==] is equality.
    - The patterns handed to [re.match] and [re.search] are terms of the
      type [re] below and are run by a backtracking matcher that tries the
      alternatives in the order Python's [re] does (greedy repetition
      first), so that both the existence of a match and the text captured
      by [(?P<name>...)] are those of the source.
    - The three [defaultdict(list)] tables of [PepAnalyzer] are finite maps
      from line numbers to lists; a missing key reads as the empty list.
    - A file is opened in text mode: its text has the newlines already
      translated, and iterating over it yields the lines with their
      newline.  The file system, [ast.parse] and the recursion limit of
      the interpreter are given by an [env].
    - [print] appends one line to the standard output; an exception that
      nothing catches ends the run with the output printed so far. *)

From Stdlib Require Import Ascii String DecimalString.
From stdpp Require Import base option list sorting strings gmap.

#[local] Set Warnings "-clear-no-such-hyp".

Open Scope string_scope.
Open Scope char_scope.
Open Scope list_scope.
Open Scope nat_scope.

(** ** Strings and characters *)

Abbreviation str := (list ascii).

(** A string literal of the source, as a character list. *)
Definition lit (s : string) : str := list_ascii_of_string s.

(** The newline character. *)
Definition nl : ascii := "010".

Definition code (c : ascii) : nat := nat_of_ascii c.

(** [lo-hi] inside a character class. *)
Definition in_range (lo hi c : ascii) : bool :=
  (code lo <=? code c) && (code c <=? code hi).

Definition only (c x : ascii) : bool := Ascii.eqb c x.
Definition except (c x : ascii) : bool := negb (Ascii.eqb c x).

(** [\s] on a [str] pattern: the characters Python's [str.isspace]
    accepts, here those below 256. *)
Definition is_space (c : ascii) : bool :=
  in_range "009" "013" c || in_range "028" " " c
  || (code c =? 133) || (code c =? 160).

(** [\S] *)
Definition non_space (c : ascii) : bool := negb (is_space c).

(** [\w] on a [str] pattern: alphanumeric characters and the underscore;
    above 127 these are the Latin-1 letters and numeric signs. *)
Definition is_word (c : ascii) : bool :=
  in_range "0" "9" c || in_range "A" "Z" c || only "_" c || in_range "a" "z" c
  || (code c =? 170) || in_range "178" "179" c || (code c =? 181)
  || in_range "185" "186" c || in_range "188" "190" c
  || in_range "192" "214" c || in_range "216" "246" c
  || in_range "248" "255" c.

(** Case folding used by the flag [(?i)]; exact for the literals of the
    source's only case-insensitive pattern ([#], space, [t], [o], [d]). *)
Definition lower (c : ascii) : ascii :=
  if in_range "A" "Z" c then ascii_of_nat (code c + 32) else c.

Definition same_char (ignorecase : bool) (c x : ascii) : bool :=
  if ignorecase then Ascii.eqb (lower c) (lower x) else Ascii.eqb c x.

(** ** Regular expressions *)

Inductive re : Type :=
| Eps                                (* the empty pattern *)
| Chr (c : ascii)                    (* a literal character *)
| Cls (p : ascii → bool)             (* a character class, or \w, \S *)
| Cat (a b : re)                     (* ab *)
| Alt (a b : re)                     (* a|b *)
| Star (a : re)                      (* a*, greedy *)
| Grp (name : string) (a : re)       (* (?P<name>a) *)
| NotAhead (a : re)                  (* (?!a) *)
| Bol.                               (* ^ without MULTILINE *)

Declare Scope re_scope.
Delimit Scope re_scope with re.
Bind Scope re_scope with re.
Notation "a ⋅ b" := (Cat a b) (at level 60, right associativity) : re_scope.

(** a+ *)
Definition Plus (a : re) : re := (a ⋅ Star a)%re.
(** a? *)
Definition Opt (a : re) : re := Alt a Eps.
(** a{n} *)
Fixpoint Times (n : nat) (a : re) : re :=
  match n with
  | 0 => Eps
  | S n' => (a ⋅ Times n' a)%re
  end.
(** A run of literal characters. *)
Fixpoint Lit_chars (s : str) : re :=
  match s with
  | [] => Eps
  | c :: s' => (Chr c ⋅ Lit_chars s')%re
  end.
Definition Lit (s : string) : re := Lit_chars (lit s).

(** The named groups set so far. *)
Abbreviation groups := (gmap string str).

(** s[i:j] *)
Definition slice (s : str) (i j : nat) : str := take (j - i) (drop i s).

(** Greedy repetition: one more round of the body where that moves the
    position forward, before the alternative of stopping here. *)
Fixpoint star_loop (body : nat → groups → list (nat * groups))
    (fuel : nat) (i : nat) (g : groups) : list (nat * groups) :=
  match fuel with
  | 0 => [(i, g)]
  | S fuel' =>
      flat_map (λ '(j, g'), if i <? j then star_loop body fuel' j g' else [])
               (body i g)
      ++ [(i, g)]
  end.

(** [run ic s r i g]: the ways for [r] to match [s] from position [i] with
    groups [g], each given by its end position and groups, in the order
    a backtracking matcher tries them. *)
Fixpoint run (ic : bool) (s : str) (r : re) (i : nat) (g : groups)
    : list (nat * groups) :=
  match r with
  | Eps => [(i, g)]
  | Chr c =>
      match s !! i with
      | Some x => if same_char ic c x then [(S i, g)] else []
      | None => []
      end
  | Cls p =>
      match s !! i with
      | Some x => if p x then [(S i, g)] else []
      | None => []
      end
  | Cat a b => flat_map (λ '(j, g'), run ic s b j g') (run ic s a i g)
  | Alt a b => run ic s a i g ++ run ic s b i g
  | Star a => star_loop (run ic s a) (S (length s)) i g
  | Grp name a =>
      map (λ '(j, g'), (j, <[name := slice s i j]> g')) (run ic s a i g)
  | NotAhead a =>
      match run ic s a i g with
      | [] => [(i, g)]
      | _ :: _ => []
      end
  | Bol => if i =? 0 then [(i, g)] else []
  end.

(** A match object: where the match ends, and its named groups. *)
Definition match_obj : Type := nat * groups.

(** [re.match(r, s)]: the first way to match at position 0, if any. *)
Definition re_match (ic : bool) (r : re) (s : str) : option match_obj :=
  head (run ic s r 0 ∅).

(** [re.search(r, s)]: the first match from the leftmost position that
    has one; positions [0 .. len(s)] are tried in turn. *)
Fixpoint search_from (ic : bool) (r : re) (s : str) (n i : nat)
    : option match_obj :=
  match n with
  | 0 => None
  | S n' =>
      match head (run ic s r i ∅) with
      | Some m => Some m
      | None => search_from ic r s n' (S i)
      end
  end.

Definition re_search (ic : bool) (r : re) (s : str) : option match_obj :=
  search_from ic r s (S (length s)) 0.

(** [m["name"]] *)
Definition group (m : match_obj) (name : string) : str := m.2 !!! name.

(** Truth value of the result of [re.match] / [re.search]. *)
Definition found {A} (m : option A) : bool :=
  match m with Some _ => true | None => false end.

(** ** The patterns of the source *)

Definition space : re := Cls (only " ").   (* [ ] *)

(** (?!^( {4})*[^ ]) *)
Definition re_indent : re :=
  NotAhead (Bol ⋅ Star (Times 4 (Chr " ")) ⋅ Cls (except " ")).
(** ^([^#])*;(?!\S) *)
Definition re_semicolon : re :=
  (Bol ⋅ Star (Cls (except "#")) ⋅ Chr ";" ⋅ NotAhead (Cls non_space))%re.
(** [^#]*[^ ]( ?#) *)
Definition re_inline_comment : re :=
  (Star (Cls (except "#")) ⋅ Cls (except " ") ⋅ Opt (Chr " ") ⋅ Chr "#")%re.
(** (?i)# *todo, the flag being given to the matcher *)
Definition re_todo : re := (Chr "#" ⋅ Star (Chr " ") ⋅ Lit "todo")%re.
(** ^([ ]*(?:class|def) ( )+) *)
Definition re_construction_spaces : re :=
  (Bol ⋅ Star space ⋅ Alt (Lit "class") (Lit "def") ⋅ Chr " "
   ⋅ Plus (Chr " "))%re.
(** ^(?:[ ]*class (?P<name>\w+)) *)
Definition re_class : re :=
  (Bol ⋅ Star space ⋅ Lit "class " ⋅ Grp "name" (Plus (Cls is_word)))%re.
(** ^(?:[ ]*def (?P<name>\w+)) *)
Definition re_def : re :=
  (Bol ⋅ Star space ⋅ Lit "def " ⋅ Grp "name" (Plus (Cls is_word)))%re.
(** (?:[A-Z][a-z0-9]+)+ *)
Definition re_camel : re :=
  Plus (Cls (in_range "A" "Z")
        ⋅ Plus (Cls (λ c, in_range "a" "z" c || in_range "0" "9" c))).
(** [a-z_]+ *)
Definition re_snake : re :=
  Plus (Cls (λ c, in_range "a" "z" c || only "_" c)).


(** ** The syntax tree

    The tree [ast.parse] returns, with the node classes the visitor tells
    apart.  Every other node class ([Module], [Assign], [Lambda], ...) is
    a [Generic] node holding its child nodes in the order [generic_visit]
    reaches them, which is all the visitor uses of it.  A [FunctionDef]
    has the fields [name, args, body, decorator_list, returns]; its type
    parameters hold no name in [Store] context and no function definition
    and are left out, as are the [Load]/[Store] nodes of expressions other
    than [Name], which have no fields. *)

Inductive expr_context : Type := Load | Store | Del.

Scheme All for list.
Scheme All for option.

Inductive node : Type :=
| Name (lineno : nat) (id : str) (ctx : expr_context)
| Constant (lineno : nat)
| FunctionDef (lineno : nat) (name : str) (args : arguments)
    (body decorator_list : list node) (returns : option node)
| AsyncFunctionDef (lineno : nat) (name : str) (args : arguments)
    (body decorator_list : list node) (returns : option node)
| Generic (children : list node)
with arguments : Type :=
| Arguments (posonlyargs args : list arg) (vararg : option arg)
    (kwonlyargs : list arg) (kw_defaults : list (option node))
    (kwarg : option arg) (defaults : list node)
with arg : Type :=
| Arg (name : str) (annotation : option node).

Scheme node_nested_ind := Induction for node Sort Prop
  with arguments_nested_ind := Induction for arguments Sort Prop
  with arg_nested_ind := Induction for arg Sort Prop.
Combined Scheme tree_ind
  from node_nested_ind, arguments_nested_ind, arg_nested_ind.

(** [a.arg] *)
Definition arg_name (a : arg) : str := let 'Arg n _ := a in n.
(** [node.args.args] *)
Definition args_of (a : arguments) : list arg :=
  let 'Arguments _ xs _ _ _ _ _ := a in xs.
(** [node.args.defaults] *)
Definition defaults_of (a : arguments) : list node :=
  let 'Arguments _ _ _ _ _ _ ds := a in ds.

(** [isinstance(a, ast.Constant)] *)
Definition is_Constant (n : node) : bool :=
  match n with Constant _ => true | _ => false end.

(** ** PepAnalyzer *)

(** [self.stats]: one table per key, each from a line number to a list. *)
Record stats : Type := Stats {
  variables : gmap nat (list str);
  parameters : gmap nat (list str);
  is_constant_default : gmap nat (list bool)
}.

(** [__init__] *)
Definition new_stats : stats := Stats ∅ ∅ ∅.

(** [table[lineno].append(x)] on a [defaultdict(list)] *)
Definition append_at {A} (lineno : nat) (x : A) (table : gmap nat (list A))
    : gmap nat (list A) :=
  <[lineno := (table !!! lineno) ++ [x]]> table.

Definition add_variable (lineno : nat) (x : str) (st : stats) : stats :=
  Stats (append_at lineno x (variables st)) (parameters st)
        (is_constant_default st).
Definition add_parameter (lineno : nat) (x : str) (st : stats) : stats :=
  Stats (variables st) (append_at lineno x (parameters st))
        (is_constant_default st).
Definition add_flag (lineno : nat) (b : bool) (st : stats) : stats :=
  Stats (variables st) (parameters st)
        (append_at lineno b (is_constant_default st)).

(** [for x in xs: self.visit(x)], the state being threaded through. *)
Definition visit_each {A} (f : A → stats → stats) (xs : list A) (st : stats)
    : stats :=
  foldl (λ st x, f x st) st xs.
(** A field that holds a node or [None]. *)
Definition visit_opt {A} (f : A → stats → stats) (x : option A) (st : stats)
    : stats :=
  match x with Some n => f n st | None => st end.

(** The two loops of [visit_FunctionDef] over [args.args] and
    [args.defaults]. *)
Definition record_parameters (lineno : nat) (a : arguments) (st : stats)
    : stats :=
  foldl (λ st x, add_parameter lineno (arg_name x) st) st (args_of a).
Definition record_defaults (lineno : nat) (a : arguments) (st : stats)
    : stats :=
  foldl (λ st d, add_flag lineno (is_Constant d) st) st (defaults_of a).

(** [visit]: dispatch on the node class; [visit_Name] and
    [visit_FunctionDef] end in [generic_visit], which visits the child
    nodes field by field. *)
Fixpoint visit (n : node) (st : stats) {struct n} : stats :=
  match n with
  | Name lineno id ctx =>
      match ctx with
      | Store => add_variable lineno id st
      | _ => st
      end
  | Constant _ => st
  | FunctionDef lineno _ a body decorator_list returns =>
      let st := record_parameters lineno a st in
      let st := record_defaults lineno a st in
      let st := visit_arguments a st in
      let st := visit_each visit body st in
      let st := visit_each visit decorator_list st in
      visit_opt visit returns st
  | AsyncFunctionDef _ _ a body decorator_list returns =>
      let st := visit_arguments a st in
      let st := visit_each visit body st in
      let st := visit_each visit decorator_list st in
      visit_opt visit returns st
  | Generic children => visit_each visit children st
  end
with visit_arguments (a : arguments) (st : stats) {struct a} : stats :=
  match a with
  | Arguments posonlyargs args vararg kwonlyargs kw_defaults kwarg defaults =>
      let st := visit_each visit_arg posonlyargs st in
      let st := visit_each visit_arg args st in
      let st := visit_opt visit_arg vararg st in
      let st := visit_each visit_arg kwonlyargs st in
      let st := visit_each (visit_opt visit) kw_defaults st in
      let st := visit_opt visit_arg kwarg st in
      visit_each visit defaults st
  end
with visit_arg (a : arg) (st : stats) {struct a} : stats :=
  match a with
  | Arg _ annotation => visit_opt visit annotation st
  end.

Definition get_parameters (st : stats) (lineno : nat) : list str :=
  parameters st !!! lineno.

Definition get_variables (st : stats) (lineno : nat) : list str :=
  variables st !!! lineno.

(** The loop of [get_mutable_defaults] over the zipped lists. *)
Fixpoint first_not_constant (pairs : list (str * bool)) : str :=
  match pairs with
  | [] => []
  | (param_name, is_default) :: rest =>
      if negb is_default then param_name else first_not_constant rest
  end.

Definition get_mutable_defaults (st : stats) (lineno : nat) : str :=
  first_not_constant
    (zip (parameters st !!! lineno) (is_constant_default st !!! lineno)).

(** ** The checks of [analyze_file] *)

(** What one [print] of the loop reports: the code, and the name where
    the message carries one. *)
Inductive issue : Type :=
| S001 | S002 | S003 | S004 | S005 | S006 | S007
| S008 (name : str)
| S009 (name : str)
| S010 (parameter : str)
| S011 (variable : str)
| S012.

(** The number in the code of an issue. *)
Definition code_of (e : issue) : nat :=
  match e with
  | S001 => 1 | S002 => 2 | S003 => 3 | S004 => 4 | S005 => 5 | S006 => 6
  | S007 => 7 | S008 _ => 8 | S009 _ => 9 | S010 _ => 10 | S011 _ => 11
  | S012 => 12
  end.

(** The text printed after [error_source]. *)
Definition message (e : issue) : str :=
  match e with
  | S001 => lit "S001 Too long"
  | S002 => lit "S002 Indentation is not a multiple of four"
  | S003 => lit "S003 Unnecessary semicolon"
  | S004 => lit "S004 At least two spaces before inline comment required"
  | S005 => lit "S005 TODO found"
  | S006 => lit "S006 More than two blank lines used before this line"
  | S007 =>
      lit "S007 Too many spaces after construction_name (def or class)"
  | S008 name => lit "S008 Class name " ++ name ++ lit " should use CamelCase"
  | S009 name =>
      lit "S009 Function name " ++ name ++ lit " should use snake_case"
  | S010 parameter =>
      lit "S010 Argument name '" ++ parameter ++ lit "' should be snake_case"
  | S011 variable =>
      lit "S011 Variable '" ++ variable
      ++ lit "' in function should be snake_case"
  | S012 => lit "S012 Default argument value is mutable"
  end.

(** [if cond: print(error_source, ...)] *)
Definition when (cond : bool) (e : issue) : list issue :=
  if cond then [e] else [].

(** [not re.match(r"[a-z_]+", x)] *)
Definition not_snake (x : str) : bool := negb (found (re_match false re_snake x)).

(** [for x in xs: if not re.match(...): print(...); break] *)
Definition first_offender (xs : list str) : option str :=
  List.find not_snake xs.

(** The twelve checks of the loop body, each with the issue it prints. *)

(** [if len(line) > 79] *)
Definition s001 (line : str) : list issue :=
  when (79 <? length line) S001.

Definition s002 (line : str) : list issue :=
  when (found (re_match false re_indent line)) S002.

Definition s003 (line : str) : list issue :=
  when (found (re_search false re_semicolon line)) S003.

Definition s004 (line : str) : list issue :=
  when (found (re_match false re_inline_comment line)) S004.

Definition s005 (line : str) : list issue :=
  when (found (re_search true re_todo line)) S005.

(** [if preceding_blank_line_counter > 2] *)
Definition s006 (preceding_blank_line_counter : nat) : list issue :=
  when (2 <? preceding_blank_line_counter) S006.

Definition s007 (line : str) : list issue :=
  when (found (re_match false re_construction_spaces line)) S007.

Definition s008 (line : str) : list issue :=
  match re_match false re_class line with
  | Some matches =>
      when (negb (found (re_match false re_camel (group matches "name"))))
           (S008 (group matches "name"))
  | None => []
  end.

Definition s009 (line : str) : list issue :=
  match re_match false re_def line with
  | Some matches =>
      when (negb (found (re_match false re_snake (group matches "name"))))
           (S009 (group matches "name"))
  | None => []
  end.

Definition s010 (pep : stats) (i : nat) : list issue :=
  match first_offender (get_parameters pep i) with
  | Some parameter => [S010 parameter]
  | None => []
  end.

Definition s011 (pep : stats) (i : nat) : list issue :=
  match first_offender (get_variables pep i) with
  | Some variable => [S011 variable]
  | None => []
  end.

(** [if pep_analyzer.get_mutable_defaults(i)]: a [str] is true when it is
    not empty. *)
Definition s012 (pep : stats) (i : nat) : list issue :=
  when (bool_decide (get_mutable_defaults pep i ≠ [])) S012.

(** The body of the loop for a line that is not ["\n"], with the value
    the blank-line counter has when the line is reached: the issues
    printed for line [i], in the order of the prints. *)
Definition check_line (pep : stats) (preceding_blank_line_counter : nat)
    (i : nat) (line : str) : list issue :=
  s001 line ++ s002 line ++ s003 line ++ s004 line ++ s005 line
  ++ s006 preceding_blank_line_counter
  ++ s007 line ++ s008 line ++ s009 line
  ++ s010 pep i ++ s011 pep i ++ s012 pep i.

(** The state of the loop over the lines: the counter, and what has been
    printed, each issue with its line number. *)
Record loop_state : Type := LoopState {
  preceding_blank_line_counter : nat;
  printed : list (nat * issue)
}.

(** The state when the loop starts. *)
Definition loop_start : loop_state := LoopState 0 [].

(** One turn of [for i, line in enumerate(f, start=1)]. *)
Definition loop_body (pep : stats) (st : loop_state) (i : nat) (line : str)
    : loop_state :=
  if bool_decide (line = [nl]) then
    LoopState (preceding_blank_line_counter st + 1) (printed st)
  else
    LoopState 0
      (printed st
       ++ map (pair i) (check_line pep (preceding_blank_line_counter st) i line)).

Fixpoint loop (pep : stats) (st : loop_state) (i : nat) (lines : list str)
    : loop_state :=
  match lines with
  | [] => st
  | line :: rest => loop pep (loop_body pep st i line) (S i) rest
  end.

(** The lines a text file yields when iterated: each ends with its
    newline, except possibly the last. *)
Fixpoint lines_of (text : str) : list str :=
  match text with
  | [] => []
  | c :: rest =>
      if Ascii.eqb c nl then [c] :: lines_of rest
      else match lines_of rest with
           | [] => [[c]]
           | line :: more => (c :: line) :: more
           end
  end.

(** [str(i)] for a line number. *)
Definition decimal (i : nat) : str :=
  lit (NilEmpty.string_of_uint (Nat.to_uint i)).

(** [f"{filename}: Line {i}:"] *)
Definition error_source (filename : str) (i : nat) : str :=
  filename ++ lit ": Line " ++ decimal i ++ lit ":".

(** The line [print(error_source, message)] writes. *)
Definition render (filename : str) (d : nat * issue) : str :=
  error_source filename d.1 ++ lit " " ++ message d.2.

(** ** Files and directories *)

Inductive exn : Type :=
| OSError              (* [open] or [os.listdir] fails *)
| UnicodeDecodeError   (* [f.read()] cannot decode the file *)
| SyntaxError          (* [ast.parse] rejects the text *)
| RecursionError.      (* the visit of the tree outgrows the call stack *)

(** What the program asks of its surroundings: the file system calls,
    the library's parser and the interpreter's call stack.  [read_text]
    is [open(filename)] followed by [f.read()], with newlines already
    translated.  [exceeds_recursion_limit] tells whether the nested calls
    of [pep_analyzer.visit(tree)] outgrow the recursion limit in force,
    in which case the visit raises [RecursionError]; otherwise the visit
    ends with the tables that [visit] computes. *)
Record env : Type := Env {
  isfile : str → bool;
  isdir : str → bool;
  listdir : str → exn + list str;
  read_text : str → exn + str;
  ast_parse : str → exn + node;
  exceeds_recursion_limit : node → bool
}.

(** What a call leaves behind: the lines printed, and the exception that
    ended it, if one did. *)
Record outcome : Type := Outcome {
  stdout : list str;
  raised : option exn
}.

(** [os.path.join(a, b)] on POSIX. *)
Definition path_join (a b : str) : str :=
  match b with
  | "/" :: _ => b
  | _ => match last a with
         | None => b
         | Some "/" => a ++ b
         | Some _ => a ++ lit "/" ++ b
         end
  end.

Definition analyze_file (w : env) (filename : str) : outcome :=
  match read_text w filename with
  | inl e => Outcome [] (Some e)
  | inr text =>
      match ast_parse w text with
      | inl e => Outcome [] (Some e)
      | inr tree =>
          if exceeds_recursion_limit w tree then
            Outcome [] (Some RecursionError)
          else
            let pep_analyzer := visit tree new_stats in
            Outcome
              (map (render filename)
                   (printed (loop pep_analyzer loop_start 1 (lines_of text))))
              None
      end
  end.

(** [for script in scripts: analyze_file(os.path.join(pathname, script))];
    an exception leaves the loop. *)
Fixpoint analyze_scripts (w : env) (pathname : str) (scripts : list str)
    : outcome :=
  match scripts with
  | [] => Outcome [] None
  | script :: rest =>
      let r := analyze_file w (path_join pathname script) in
      match raised r with
      | Some e => r
      | None =>
          let r' := analyze_scripts w pathname rest in
          Outcome (stdout r ++ stdout r') (raised r')
      end
  end.

Definition analyze_pathname (w : env) (pathname : str) : outcome :=
  if isfile w pathname then analyze_file w pathname
  else if isdir w pathname then
    match listdir w pathname with
    | inl e => Outcome [] (Some e)
    | inr scripts => analyze_scripts w pathname scripts
    end
  else Outcome [] None.

(** ** Vocabulary of the properties *)

(** The issues printed for line [i], in the order printed. *)
Definition issues_at (out : list (nat * issue)) (i : nat) : list issue :=
  (filter (λ d, d.1 = i) out).*2.

(** How many of the issues carry the code [c]. *)
Definition occurrences (c : nat) (es : list issue) : nat :=
  length (filter (λ e, code_of e = c) es).

(** The code [c] is among the issues. *)
Definition fires (c : nat) (es : list issue) : Prop := c ∈ code_of <$> es.

(** A check prints nothing or one issue of its own code. *)
Definition prints_at_most (k : nat) (seg : list issue) : Prop :=
  seg = [] ∨ ∃ e, seg = [e] ∧ code_of e = k.

(** Issues whose codes ascend strictly and lie in [lo, hi). *)
Definition ascending (lo hi : nat) (es : list issue) : Prop :=
  StronglySorted lt (code_of <$> es) ∧ Forall (λ e, lo ≤ code_of e < hi) es.

(** The number of consecutive lines ["\n"] at the end of [before], read
    off the lines themselves, last line first. *)
Fixpoint blank_run_rev (rev_before : list str) : nat :=
  match rev_before with
  | line :: earlier =>
      if bool_decide (line = [nl]) then S (blank_run_rev earlier) else 0
  | [] => 0
  end.
Definition blank_run (before : list str) : nat :=
  blank_run_rev (reverse before).

(** [spans ic s r i j]: the pattern [r] matches the characters of [s]
    from position [i] up to position [j], read off the pattern without
    regard to the order in which a matcher tries things. *)
Fixpoint spans (ic : bool) (s : str) (r : re) (i j : nat) : Prop :=
  match r with
  | Eps => j = i
  | Chr c => j = S i ∧ ∃ x, s !! i = Some x ∧ same_char ic c x = true
  | Cls p => j = S i ∧ ∃ x, s !! i = Some x ∧ p x = true
  | Cat a b => ∃ k, spans ic s a i k ∧ spans ic s b k j
  | Alt a b => spans ic s a i j ∨ spans ic s b i j
  | Star a => rtc (λ i j, i < j ∧ spans ic s a i j) i j
  | Grp _ a => spans ic s a i j
  | NotAhead a => j = i ∧ ¬ ∃ k, spans ic s a i k
  | Bol => j = i ∧ i = 0
  end.

(** The issues printed for [line] where it stands in the file
    [before ++ line :: after]. *)
Definition printed_for (pep : stats) (before : list str) (line : str)
    (after : list str) : list issue :=
  issues_at (printed (loop pep loop_start 1 (before ++ line :: after)))
            (S (length before)).

(** The longest prefix of [s] made of characters of the class [p]. *)
Fixpoint leading (p : ascii → bool) (s : str) : str :=
  match s with
  | c :: rest => if p c then c :: leading p rest else []
  | [] => []
  end.

(** The name a line declares with [keyword] (["def "] or ["class "]):
    after the leading spaces comes the keyword, and the name is the
    longest run of word characters that follows, if it is not empty. *)
Definition declared_name (keyword : str) (line : str) : option str :=
  let rest := drop (length (leading (only " ") line)) line in
  if bool_decide (take (length keyword) rest = keyword) then
    match leading is_word (drop (length keyword) rest) with
    | [] => None
    | name => Some name
    end
  else None.

(** The shape of the two declaration patterns: [re_class] and [re_def]
    are [re_declaration] of ["class "] and of ["def "]. *)
Definition re_declaration (keyword : str) : re :=
  (Bol ⋅ Star space ⋅ Lit_chars keyword
   ⋅ Grp "name" (Plus (Cls is_word)))%re.

(** A semicolon before the first [#] of the line, followed by white
    space or by the end of the line. *)
Definition semicolon_before_comment (line : str) : Prop :=
  ∃ pre post, line = pre ++ ";" :: post
              ∧ ("#" ∉ pre)
              ∧ match post with
                | [] => True
                | c :: _ => is_space c = true
                end.

(** Where the next character of a line stands, for a line that starts
    outside any string literal: in the code, inside a string literal
    opened by [quote] (right after a backslash or not), or in the comment
    that a [#] of the code has opened. *)
Inductive lexical_place : Type :=
| in_code
| in_string (quote : ascii)
| after_backslash (quote : ascii)
| in_comment.

Definition lex_step (place : lexical_place) (c : ascii) : lexical_place :=
  match place with
  | in_code =>
      if Ascii.eqb c "#" then in_comment
      else if Ascii.eqb c "'" || Ascii.eqb c "034" then in_string c
      else in_code
  | in_string quote =>
      if Ascii.eqb c "092" then after_backslash quote
      else if Ascii.eqb c quote then in_code
      else in_string quote
  | after_backslash quote => in_string quote
  | in_comment => in_comment
  end.

(** Where the character that follows [pre] stands. *)
Definition place_after (pre : str) : lexical_place :=
  foldl lex_step in_code pre.

(** A semicolon that separates statements outside of any comment, that
    is, one that stands in the code of the line and neither in a string
    literal nor in a comment, followed by white space or by the end of
    the line. *)
Definition separator_outside_comment (line : str) : Prop :=
  ∃ pre post, line = pre ++ ";" :: post
              ∧ place_after pre = in_code
              ∧ match post with
                | [] => True
                | c :: _ => is_space c = true
                end.

(** A [#], then spaces only (possibly none), then the letters of "todo"
    in either case. *)
Definition todo_right_after_hash (line : str) : Prop :=
  ∃ pre n word post,
    line = pre ++ "#" :: replicate n " " ++ word ++ post
    ∧ lower <$> word = lit "todo".

(** "todo", in either case, somewhere after a [#]. *)
Definition todo_anywhere_after_hash (line : str) : Prop :=
  ∃ pre between word post,
    line = pre ++ "#" :: between ++ word ++ post
    ∧ lower <$> word = lit "todo".

(** The line starts with a multiple of four spaces followed by a
    character that is not a space. *)
Definition indented_by_fours (line : str) : Prop :=
  ∃ m c rest, line = replicate (4 * m) " " ++ c :: rest ∧ c ≠ " ".

(** What analyzing the entries [scripts] of a directory prints when each
    is analyzed on its own, one after the other. *)
Definition outputs_of (w : env) (pathname : str) (scripts : list str)
    : list str :=
  flat_map (λ script, stdout (analyze_file w (path_join pathname script)))
           scripts.

(** The entry can be analyzed: no exception ends its analysis. *)
Definition analyzable (w : env) (pathname : str) (script : str) : Prop :=
  raised (analyze_file w (path_join pathname script)) = None.

(** A directory [d] with two files: [a.py], which does not parse, and
    [b.py], which holds the line [x = 5;]. *)
Definition two_files : env :=
  {| isfile p := bool_decide (p = lit "d/a.py" ∨ p = lit "d/b.py");
     isdir p := bool_decide (p = lit "d");
     listdir p :=
       if bool_decide (p = lit "d") then inr [lit "a.py"; lit "b.py"]
       else inl OSError;
     read_text p :=
       if bool_decide (p = lit "d/a.py") then inr (lit "def f(:" ++ [nl])
       else if bool_decide (p = lit "d/b.py") then inr (lit "x = 5;" ++ [nl])
       else inl OSError;
     ast_parse text :=
       if bool_decide (text = lit "x = 5;" ++ [nl])
       then inr (Generic [Generic [Name 1 (lit "x") Store; Constant 1]])
       else inl SyntaxError;
     exceeds_recursion_limit tree := false |}.

(** The function definitions ([def], not [async def]) of a tree, each
    with its line number and its parameters, in the order the visitor
    meets them. *)
Fixpoint function_defs (n : node) : list (nat * arguments) :=
  match n with
  | Name _ _ _ => []
  | Constant _ => []
  | FunctionDef lineno _ a body decorator_list returns =>
      (lineno, a) :: function_defs_arguments a
      ++ flat_map function_defs body
      ++ flat_map function_defs decorator_list
      ++ from_option function_defs [] returns
  | AsyncFunctionDef _ _ a body decorator_list returns =>
      function_defs_arguments a
      ++ flat_map function_defs body
      ++ flat_map function_defs decorator_list
      ++ from_option function_defs [] returns
  | Generic children => flat_map function_defs children
  end
with function_defs_arguments (a : arguments) : list (nat * arguments) :=
  match a with
  | Arguments posonlyargs args vararg kwonlyargs kw_defaults kwarg defaults =>
      flat_map function_defs_arg posonlyargs
      ++ flat_map function_defs_arg args
      ++ from_option function_defs_arg [] vararg
      ++ flat_map function_defs_arg kwonlyargs
      ++ flat_map (from_option function_defs []) kw_defaults
      ++ from_option function_defs_arg [] kwarg
      ++ flat_map function_defs defaults
  end
with function_defs_arg (a : arg) : list (nat * arguments) :=
  match a with
  | Arg _ annotation => from_option function_defs [] annotation
  end.

(** The function definitions that start on line [i]. *)
Definition function_defs_at (i : nat) (tree : node)
    : list (nat * arguments) :=
  filter (λ f, f.1 = i) (function_defs tree).

(** The tree of a file with the one function [def f(...): pass] on its
    first line, for given parameters. *)
Definition def_f (a : arguments) : node :=
  Generic [FunctionDef 1 (lit "f") a [Generic []] [] None].

(** The parameters of [def f(a, b=[])]: the default is a list display. *)
Definition a_b_list : arguments :=
  Arguments [] [Arg (lit "a") None; Arg (lit "b") None] None [] [] None
            [Generic []].
(** The parameters of [def f(a, b=1)]. *)
Definition a_b_one : arguments :=
  Arguments [] [Arg (lit "a") None; Arg (lit "b") None] None [] [] None
            [Constant 1].
(** The parameters of [def f] with a bare star and then [b=[]]: [b] is
    keyword-only. *)
Definition b_list_kwonly : arguments :=
  Arguments [] [] None [Arg (lit "b") None] [Some (Generic [])] None [].
(** The parameters of [def f(b=[], /)]: [b] is positional-only. *)
Definition b_list_posonly : arguments :=
  Arguments [Arg (lit "b") None] [] None [] [] None [Generic []].

(** The parameter names and the flags of the defaults that the
    definitions [fs] put on line [i]. *)
Definition names_of (i : nat) (fs : list (nat * arguments)) : list str :=
  flat_map (λ f, if decide (f.1 = i) then arg_name <$> args_of f.2 else [])
           fs.
Definition flags_of (i : nat) (fs : list (nat * arguments)) : list bool :=
  flat_map (λ f, if decide (f.1 = i) then is_Constant <$> defaults_of f.2
                 else [])
           fs.

(** A step of the visit that adds to line [i] what [fs] put there. *)
Definition adds (i : nat) (F : stats → stats) (fs : list (nat * arguments))
    : Prop :=
  ∀ st, parameters (F st) !!! i = parameters st !!! i ++ names_of i fs
        ∧ is_constant_default (F st) !!! i
          = is_constant_default st !!! i ++ flags_of i fs.

(** A character other than a space, with no [#] before it, is followed
    by a [#] at once or after a single space. *)
Definition cramped_comment (line : str) : Prop :=
  ∃ pre c post,
    line = pre ++ c :: post
    ∧ ("#" ∉ pre) ∧ c ≠ " "
    ∧ ∃ post', post = "#" :: post' ∨ post = " " :: "#" :: post'.

(** Spaces only, then [class] or [def], then two spaces at least. *)
Definition two_spaces_after_keyword (line : str) : Prop :=
  ∃ k keyword rest,
    line = replicate k " " ++ keyword ++ " " :: " " :: rest
    ∧ (keyword = lit "class" ∨ keyword = lit "def").

(** The name starts with a lowercase letter or an underscore. *)
Definition starts_snake (x : str) : Prop :=
  ∃ c rest, x = c :: rest ∧ (in_range "a" "z" c || only "_" c) = true.

(** [p] is the first of [xs] that does not start as snake_case names
    do. *)
Definition first_not_snake (xs : list str) (p : str) : Prop :=
  ∃ l1 l2, xs = l1 ++ p :: l2 ∧ Forall starts_snake l1 ∧ ¬ starts_snake p.

(** The names in [Store] context that a tree holds on line [i], in the
    order the visitor meets them. *)
Fixpoint stored_at (i : nat) (n : node) : list str :=
  match n with
  | Name lineno id ctx =>
      match ctx with
      | Store => if decide (lineno = i) then [id] else []
      | _ => []
      end
  | Constant _ => []
  | FunctionDef _ _ a body decorator_list returns =>
      stored_at_arguments i a
      ++ flat_map (stored_at i) body
      ++ flat_map (stored_at i) decorator_list
      ++ from_option (stored_at i) [] returns
  | AsyncFunctionDef _ _ a body decorator_list returns =>
      stored_at_arguments i a
      ++ flat_map (stored_at i) body
      ++ flat_map (stored_at i) decorator_list
      ++ from_option (stored_at i) [] returns
  | Generic children => flat_map (stored_at i) children
  end
with stored_at_arguments (i : nat) (a : arguments) : list str :=
  match a with
  | Arguments posonlyargs args vararg kwonlyargs kw_defaults kwarg defaults =>
      flat_map (stored_at_arg i) posonlyargs
      ++ flat_map (stored_at_arg i) args
      ++ from_option (stored_at_arg i) [] vararg
      ++ flat_map (stored_at_arg i) kwonlyargs
      ++ flat_map (from_option (stored_at i) []) kw_defaults
      ++ from_option (stored_at_arg i) [] kwarg
      ++ flat_map (stored_at i) defaults
  end
with stored_at_arg (i : nat) (a : arg) : list str :=
  match a with
  | Arg _ annotation => from_option (stored_at i) [] annotation
  end.

(** A step of the visit that adds the names [vs] to the variables of
    line [i]. *)
Definition stores (i : nat) (F : stats → stats) (vs : list str) : Prop :=
  ∀ st, variables (F st) !!! i = variables st !!! i ++ vs.

(** The tree of the two lines [x = 5] and [print(x)], and that of the
    two lines [def f(a, B, C):] and [    Total = a] . *)
Definition x_is_five_printed : node :=
  Generic [Generic [Name 1 (lit "x") Store; Constant 1];
           Generic [Generic [Name 2 (lit "print") Load;
                             Name 2 (lit "x") Load]]].
Definition def_f_a_B_C : node :=
  Generic [FunctionDef 1 (lit "f")
             (Arguments [] [Arg (lit "a") None; Arg (lit "B") None;
                            Arg (lit "C") None] None [] [] None [])
             [Generic [Name 2 (lit "Total") Store; Name 2 (lit "a") Load]]
             [] None].

(** ** The loop over the lines *)

Lemma loop_app pep st k l1 l2 :
  loop pep st k (l1 ++ l2) = loop pep (loop pep st k l1) (k + length l1) l2.
Proof.
  revert st k. induction l1 as [|l l1 IH]; intros st k; simpl.
  - by rewrite Nat.add_0_r.
  - rewrite IH. by replace (S k + length l1) with (k + S (length l1)) by lia.
Qed.

Lemma loop_body_blank pep st i :
  loop_body pep st i [nl]
  = LoopState (preceding_blank_line_counter st + 1) (printed st).
Proof. unfold loop_body. by rewrite bool_decide_eq_true_2. Qed.

Lemma loop_body_non_blank pep st i line :
  line ≠ [nl] →
  loop_body pep st i line
  = LoopState 0
      (printed st
       ++ map (pair i) (check_line pep (preceding_blank_line_counter st) i line)).
Proof. intros H. unfold loop_body. by rewrite bool_decide_eq_false_2. Qed.

(** What the loop adds to the output carries the numbers of the lines it
    went through. *)
Lemma loop_printed pep st k lines :
  ∃ new, printed (loop pep st k lines) = printed st ++ new
         ∧ Forall (λ d, k ≤ d.1 < k + length lines) new.
Proof.
  revert st k. induction lines as [|l lines IH]; intros st k; simpl.
  - exists []. by rewrite app_nil_r.
  - destruct (IH (loop_body pep st k l) (S k)) as (new & -> & Hnew).
    destruct (decide (l = [nl])) as [->|Hl].
    + rewrite loop_body_blank. simpl. exists new. split; [done|].
      eapply Forall_impl; [exact Hnew|]. simpl. intros; lia.
    + rewrite loop_body_non_blank by done. simpl.
      eexists. rewrite <- app_assoc. split; [done|].
      apply Forall_app. split.
      * apply Forall_forall. intros d Hd.
        apply list_elem_of_fmap in Hd as (e & -> & _). simpl. lia.
      * eapply Forall_impl; [exact Hnew|]. simpl. intros; lia.
Qed.

Lemma issues_at_app out1 out2 i :
  issues_at (out1 ++ out2) i = issues_at out1 i ++ issues_at out2 i.
Proof. unfold issues_at. by rewrite filter_app, fmap_app. Qed.

Lemma issues_at_other out i :
  Forall (λ d, d.1 ≠ i) out → issues_at out i = [].
Proof.
  intros H. unfold issues_at.
  induction H as [|d out Hd _ IH]; [done|].
  rewrite filter_cons_False by done. exact IH.
Qed.

Lemma issues_at_same es i : issues_at (map (pair i) es) i = es.
Proof.
  unfold issues_at. induction es as [|e es IH]; [done|].
  simpl. rewrite filter_cons_True by done. simpl. by f_equal.
Qed.

(** The counter after a stretch of lines. *)
Lemma loop_counter_snoc pep st k before line :
  preceding_blank_line_counter (loop pep st k (before ++ [line]))
  = if bool_decide (line = [nl])
    then preceding_blank_line_counter (loop pep st k before) + 1
    else 0.
Proof.
  rewrite loop_app. simpl. unfold loop_body.
  by destruct (bool_decide (line = [nl])).
Qed.

Lemma loop_counter pep before :
  preceding_blank_line_counter (loop pep loop_start 1 before)
  = blank_run before.
Proof.
  induction before as [|line before IH] using rev_ind; [done|].
  rewrite loop_counter_snoc, IH. unfold blank_run.
  rewrite reverse_snoc. simpl.
  destruct (bool_decide (line = [nl])); lia.
Qed.

(** The output of the whole loop, seen from one of its lines. *)
Lemma loop_split pep before line after :
  ∃ old new,
    printed (loop pep loop_start 1 (before ++ line :: after))
    = old ++ printed (loop_body pep (LoopState (blank_run before) [])
                                (S (length before)) line) ++ new
    ∧ Forall (λ d, d.1 ≠ S (length before)) old
    ∧ Forall (λ d, d.1 ≠ S (length before)) new.
Proof.
  rewrite loop_app. simpl.
  destruct (loop_printed pep loop_start 1 before) as (old & Hold & Fold).
  simpl in Hold.
  set (st := loop pep loop_start 1 before) in *.
  destruct (loop_printed pep (loop_body pep st (S (length before)) line)
              (S (S (length before))) after) as (new & Hnew & Fnew).
  exists old, new. rewrite Hnew. split; [|split].
  - rewrite app_assoc. f_equal.
    assert (Hc : preceding_blank_line_counter st = blank_run before)
      by apply loop_counter.
    unfold loop_body. rewrite Hc, Hold. simpl.
    destruct (bool_decide (line = [nl])); simpl; by rewrite ?app_nil_r.
  - eapply Forall_impl; [exact Fold|]. simpl. intros; lia.
  - eapply Forall_impl; [exact Fnew|]. simpl. intros; lia.
Qed.

Lemma issues_at_line pep before line after :
  line ≠ [nl] →
  issues_at (printed (loop pep loop_start 1 (before ++ line :: after)))
            (S (length before))
  = check_line pep (blank_run before) (S (length before)) line.
Proof.
  intros Hl.
  destruct (loop_split pep before line after) as (old & new & -> & Ho & Hn).
  rewrite loop_body_non_blank by done. simpl.
  rewrite !issues_at_app, (issues_at_other old), (issues_at_other new) by done.
  by rewrite issues_at_same, app_nil_r.
Qed.

Lemma issues_at_blank pep before after :
  issues_at (printed (loop pep loop_start 1 (before ++ [nl] :: after)))
            (S (length before))
  = [].
Proof.
  destruct (loop_split pep before [nl] after) as (old & new & -> & Ho & Hn).
  rewrite loop_body_blank. simpl.
  by rewrite !issues_at_app, (issues_at_other old), (issues_at_other new).
Qed.

Lemma issues_at_outside pep lines i :
  i = 0 ∨ length lines < i →
  issues_at (printed (loop pep loop_start 1 lines)) i = [].
Proof.
  intros Hi. destruct (loop_printed pep loop_start 1 lines) as (new & -> & F).
  simpl. apply issues_at_other.
  eapply Forall_impl; [exact F|]. simpl. intros; lia.
Qed.

(** ** The shape of what one line prints *)

Create HintDb checks.

Lemma when_prints b e : prints_at_most (code_of e) (when b e).
Proof. destruct b; [right; by exists e | by left]. Qed.

Lemma s001_prints line : prints_at_most 1 (s001 line).
Proof. apply (when_prints _ S001). Qed.
Lemma s002_prints line : prints_at_most 2 (s002 line).
Proof. apply (when_prints _ S002). Qed.
Lemma s003_prints line : prints_at_most 3 (s003 line).
Proof. apply (when_prints _ S003). Qed.
Lemma s004_prints line : prints_at_most 4 (s004 line).
Proof. apply (when_prints _ S004). Qed.
Lemma s005_prints line : prints_at_most 5 (s005 line).
Proof. apply (when_prints _ S005). Qed.
Lemma s006_prints n : prints_at_most 6 (s006 n).
Proof. apply (when_prints _ S006). Qed.
Lemma s007_prints line : prints_at_most 7 (s007 line).
Proof. apply (when_prints _ S007). Qed.
Lemma s008_prints line : prints_at_most 8 (s008 line).
Proof.
  unfold s008. destruct (re_match false re_class line) as [m|]; [|by left].
  apply (when_prints _ (S008 _)).
Qed.
Lemma s009_prints line : prints_at_most 9 (s009 line).
Proof.
  unfold s009. destruct (re_match false re_def line) as [m|]; [|by left].
  apply (when_prints _ (S009 _)).
Qed.
Lemma s010_prints pep i : prints_at_most 10 (s010 pep i).
Proof.
  unfold s010. destruct (first_offender _) as [x|]; [right|by left].
  by exists (S010 x).
Qed.
Lemma s011_prints pep i : prints_at_most 11 (s011 pep i).
Proof.
  unfold s011. destruct (first_offender _) as [x|]; [right|by left].
  by exists (S011 x).
Qed.
Lemma s012_prints pep i : prints_at_most 12 (s012 pep i).
Proof. apply (when_prints _ S012). Qed.

#[local] Hint Resolve s001_prints s002_prints s003_prints s004_prints
  s005_prints s006_prints s007_prints s008_prints s009_prints s010_prints
  s011_prints s012_prints : checks.

Lemma ascending_one k seg : prints_at_most k seg → ascending k (S k) seg.
Proof.
  intros [->|(e & -> & <-)]; split; simpl; repeat constructor; lia.
Qed.

Lemma ascending_app lo mid hi es1 es2 :
  lo ≤ mid ≤ hi →
  ascending lo mid es1 → ascending mid hi es2 → ascending lo hi (es1 ++ es2).
Proof.
  intros Hm [S1 F1] [S2 F2]. split.
  - rewrite fmap_app. apply StronglySorted_app. split_and!; [|done..].
    intros c1 c2 Hc1 Hc2.
    apply list_elem_of_fmap in Hc1 as (e1 & -> & H1).
    apply list_elem_of_fmap in Hc2 as (e2 & -> & H2).
    rewrite Forall_forall in F1, F2.
    specialize (F1 _ H1). specialize (F2 _ H2). lia.
  - apply Forall_app. split.
    + eapply Forall_impl; [exact F1|]. simpl. intros; lia.
    + eapply Forall_impl; [exact F2|]. simpl. intros; lia.
Qed.

(** The codes printed for one line ascend from S001 to S012. *)
Lemma check_line_ascending pep n i line :
  ascending 1 13 (check_line pep n i line).
Proof.
  unfold check_line.
  repeat (eapply (ascending_app _ _ 13);
          [ | apply ascending_one; auto with checks | ]; [lia|]).
  apply ascending_one; auto with checks.
Qed.

(** An issue of a line comes from the check of its code. *)
Lemma elem_of_segment k seg e :
  prints_at_most k seg → e ∈ seg ↔ code_of e = k ∧ e ∈ seg.
Proof.
  intros [->|(e' & -> & <-)]; [set_solver|].
  rewrite list_elem_of_singleton. naive_solver.
Qed.

Lemma elem_of_check_line e pep n i line :
  e ∈ check_line pep n i line ↔
    (code_of e = 1 ∧ e ∈ s001 line) ∨ (code_of e = 2 ∧ e ∈ s002 line)
    ∨ (code_of e = 3 ∧ e ∈ s003 line) ∨ (code_of e = 4 ∧ e ∈ s004 line)
    ∨ (code_of e = 5 ∧ e ∈ s005 line) ∨ (code_of e = 6 ∧ e ∈ s006 n)
    ∨ (code_of e = 7 ∧ e ∈ s007 line) ∨ (code_of e = 8 ∧ e ∈ s008 line)
    ∨ (code_of e = 9 ∧ e ∈ s009 line) ∨ (code_of e = 10 ∧ e ∈ s010 pep i)
    ∨ (code_of e = 11 ∧ e ∈ s011 pep i) ∨ (code_of e = 12 ∧ e ∈ s012 pep i).
Proof.
  unfold check_line. rewrite !elem_of_app.
  rewrite (elem_of_segment 1 (s001 line)), (elem_of_segment 2 (s002 line)),
    (elem_of_segment 3 (s003 line)), (elem_of_segment 4 (s004 line)),
    (elem_of_segment 5 (s005 line)), (elem_of_segment 6 (s006 n)),
    (elem_of_segment 7 (s007 line)), (elem_of_segment 8 (s008 line)),
    (elem_of_segment 9 (s009 line)), (elem_of_segment 10 (s010 pep i)),
    (elem_of_segment 11 (s011 pep i)), (elem_of_segment 12 (s012 pep i))
    by auto with checks.
  tauto.
Qed.

Lemma elem_of_when e b e' : e ∈ when b e' ↔ b = true ∧ e = e'.
Proof. destruct b; simpl; [rewrite list_elem_of_singleton|]; set_solver. Qed.

Lemma fires_elem c es : fires c es ↔ ∃ e, e ∈ es ∧ code_of e = c.
Proof. unfold fires. rewrite list_elem_of_fmap. naive_solver. Qed.

(** Ascending codes: a code that fires occurs exactly once. *)
Lemma occurrences_app c es1 es2 :
  occurrences c (es1 ++ es2) = occurrences c es1 + occurrences c es2.
Proof. unfold occurrences. by rewrite filter_app, length_app. Qed.

Lemma occurrences_none c es : ¬ fires c es → occurrences c es = 0.
Proof.
  unfold occurrences, fires. induction es as [|e es IH]; [done|].
  intros H. rewrite fmap_cons, not_elem_of_cons in H. destruct H as [H1 H2].
  rewrite filter_cons_False by done. auto.
Qed.

Lemma occurrences_segment c k seg :
  prints_at_most k seg →
  occurrences c seg = if bool_decide (c = k ∧ seg ≠ []) then 1 else 0.
Proof.
  intros [->|(e & -> & <-)]; unfold occurrences.
  - rewrite bool_decide_eq_false_2; [done|naive_solver].
  - destruct (decide (code_of e = c)) as [<-|Hne].
    + rewrite filter_cons_True by done.
      by rewrite bool_decide_eq_true_2.
    + rewrite filter_cons_False by done.
      rewrite bool_decide_eq_false_2; [done|naive_solver].
Qed.

Lemma occurrences_sorted c es :
  StronglySorted lt (code_of <$> es) → occurrences c es ≤ 1.
Proof.
  induction es as [|e es IH]; [unfold occurrences; simpl; lia|].
  rewrite fmap_cons. intros [F Hs]%StronglySorted_cons.
  change (e :: es) with ([e] ++ es). rewrite occurrences_app.
  destruct (decide (code_of e = c)) as [<-|Hne].
  - rewrite (occurrences_none _ es).
    + unfold occurrences. rewrite filter_cons_True by done. simpl. lia.
    + unfold fires. rewrite Forall_forall in F. intros H%F. lia.
  - specialize (IH Hs). unfold occurrences at 1.
    rewrite filter_cons_False by done. simpl. lia.
Qed.

(** What is printed for a line number is nothing, or what the twelve
    checks print for the line of that number. *)
Lemma issues_at_cases pep lines i :
  let out := printed (loop pep loop_start 1 lines) in
  issues_at out i = []
  ∨ ∃ n line, line ≠ [nl] ∧ lines !! (i - 1) = Some line
              ∧ issues_at out i = check_line pep n i line.
Proof.
  simpl. destruct (decide (i = 0 ∨ length lines < i)) as [Hi|Hi].
  - left. by apply issues_at_outside.
  - assert (Hlt : i - 1 < length lines) by lia.
    apply lookup_lt_is_Some in Hlt as [line Hline].
    assert (∃ before after,
              lines = before ++ line :: after ∧ i = S (length before))
      as (before & after & Hlines & Hi').
    { exists (take (i - 1) lines), (drop (S (i - 1)) lines). split.
      - symmetry. by apply take_drop_middle.
      - rewrite length_take. apply lookup_lt_Some in Hline. lia. }
    subst lines i.
    destruct (decide (line = [nl])) as [->|Hne].
    + left. apply issues_at_blank.
    + right. exists (blank_run before), line.
      split_and!; [done..|]. by apply issues_at_line.
Qed.

Lemma loop_sorted pep st k lines :
  StronglySorted le (printed st).*1 →
  Forall (λ d, d.1 ≤ k) (printed st) →
  StronglySorted le (printed (loop pep st k lines)).*1.
Proof.
  revert st k. induction lines as [|l lines IH]; intros st k Hs Hk; [done|].
  simpl. apply IH.
  - unfold loop_body. destruct (bool_decide (l = [nl])); simpl; [done|].
    rewrite fmap_app. apply StronglySorted_app. split_and!; [|done|].
    + intros x1 x2 H1 H2.
      apply list_elem_of_fmap in H1 as (d1 & -> & H1).
      apply list_elem_of_fmap in H2 as (d2 & -> & H2).
      apply list_elem_of_fmap in H2 as (e & -> & _).
      rewrite Forall_forall in Hk. apply (Hk _ H1).
    + generalize (check_line pep (preceding_blank_line_counter st) k l).
      intros es. induction es as [|e es IHes]; simpl; constructor; [done|].
      apply Forall_forall. intros x Hx.
      apply list_elem_of_fmap in Hx as (d & -> & Hd).
      apply list_elem_of_fmap in Hd as (e' & -> & _). done.
  - unfold loop_body. destruct (bool_decide (l = [nl])); simpl.
    + eapply Forall_impl; [exact Hk|]. simpl; intros; lia.
    + apply Forall_app. split.
      * eapply Forall_impl; [exact Hk|]. simpl; intros; lia.
      * apply Forall_forall. intros d Hd.
        apply list_elem_of_fmap in Hd as (e & -> & _). simpl. lia.
Qed.

(** ** S001: line length *)

Lemma s001_iff line : s001 line ≠ [] ↔ 79 < length line.
Proof.
  unfold s001. destruct (79 <? length line) eqn:E; simpl.
  - apply Nat.ltb_lt in E. naive_solver.
  - apply Nat.ltb_ge in E. split; [done|lia].
Qed.

Lemma occurrences_S001 pep n i line :
  occurrences 1 (check_line pep n i line)
  = if 79 <? length line then 1 else 0.
Proof.
  unfold check_line. rewrite !occurrences_app.
  rewrite (occurrences_segment 1 1 (s001 line)),
    (occurrences_segment 1 2 (s002 line)),
    (occurrences_segment 1 3 (s003 line)),
    (occurrences_segment 1 4 (s004 line)),
    (occurrences_segment 1 5 (s005 line)),
    (occurrences_segment 1 6 (s006 n)),
    (occurrences_segment 1 7 (s007 line)),
    (occurrences_segment 1 8 (s008 line)),
    (occurrences_segment 1 9 (s009 line)),
    (occurrences_segment 1 10 (s010 pep i)),
    (occurrences_segment 1 11 (s011 pep i)),
    (occurrences_segment 1 12 (s012 pep i)) by auto with checks.
  rewrite !(bool_decide_eq_false_2 (1 = S (S _) ∧ _)) by (intros [? _]; lia).
  rewrite !Nat.add_0_r.
  destruct (79 <? length line) eqn:E.
  - rewrite bool_decide_eq_true_2; [done|].
    split; [done|]. apply s001_iff. by apply Nat.ltb_lt.
  - rewrite bool_decide_eq_false_2; [done|].
    intros [_ H]. apply s001_iff in H. apply Nat.ltb_ge in E. lia.
Qed.

Lemma printed_for_line pep before line after :
  line ≠ [nl] →
  printed_for pep before line after
  = check_line pep (blank_run before) (S (length before)) line.
Proof. apply issues_at_line. Qed.

(** C8.  For every non-blank line of a file, its length counting the
    trailing newline, S001 is printed exactly once when the length
    exceeds 79 and is not printed when the length is at most 79. *)
Theorem S001_once_iff_longer_than_79 pep before line after :
  line ≠ [nl] →
  occurrences 1 (printed_for pep before line after)
  = if 79 <? length line then 1 else 0.
Proof. intros H. rewrite printed_for_line by done. apply occurrences_S001. Qed.

Lemma S001_once_iff_longer_than_79_witness :
  occurrences 1
    (printed_for new_stats [lit "x = 1" ++ [nl]] (replicate 79 "x" ++ [nl]) [])
  = 1.
Proof.
  apply (S001_once_iff_longer_than_79 new_stats [lit "x = 1" ++ [nl]]
           (replicate 79 "x" ++ [nl]) []).
  discriminate.
Defined.

(** ** The order of the diagnostics *)

(** C7.  For every file, the diagnostics come in ascending line number;
    those of one line come with strictly ascending codes between S001 and
    S012, so that no code occurs twice for a line. *)
Theorem diagnostics_in_line_then_code_order pep lines :
  let out := printed (loop pep loop_start 1 lines) in
  StronglySorted le out.*1
  ∧ ∀ i, StronglySorted lt (code_of <$> issues_at out i)
         ∧ Forall (λ e, 1 ≤ code_of e ≤ 12) (issues_at out i)
         ∧ ∀ c, occurrences c (issues_at out i) ≤ 1.
Proof.
  simpl. split.
  - apply loop_sorted; simpl; constructor.
  - intros i.
    assert (A : ascending 1 13 (issues_at (printed (loop pep loop_start 1 lines)) i)).
    { destruct (issues_at_cases pep lines i) as [->|(n & line & _ & _ & ->)].
      - split; constructor.
      - apply check_line_ascending. }
    destruct A as [A1 A2]. split_and!; [done| |].
    + eapply Forall_impl; [exact A2|]. simpl; intros; lia.
    + intros c. by apply occurrences_sorted.
Qed.

(** ** The blank-line counter *)

Lemma fires_S006 pep n i line : fires 6 (check_line pep n i line) ↔ 2 < n.
Proof.
  rewrite fires_elem. split.
  - intros (e & He & Hc). apply elem_of_check_line in He.
    destruct He as [[? _]|[[? _]|[[? _]|[[? _]|[[? _]|[[_ He]|
      [[? _]|[[? _]|[[? _]|[[? _]|[[? _]|[? _]]]]]]]]]]]]; try congruence.
    apply elem_of_when in He as [He _]. by apply Nat.ltb_lt.
  - intros H. exists S006. split; [|done].
    apply elem_of_check_line. do 5 right. left. split; [done|].
    apply elem_of_when. split; [|done]. by apply Nat.ltb_lt.
Qed.

(** C6.  For every file the counter starts at zero; no issue is printed
    for a blank line; and at each non-blank line the counter holds the
    number of blank lines right before it, S006 is printed for the line
    exactly when that number exceeds two, and the counter is zero once
    the line is done. *)
Theorem blank_run_counter pep lines :
  let out := printed (loop pep loop_start 1 lines) in
  preceding_blank_line_counter loop_start = 0
  ∧ (∀ i, lines !! i = Some [nl] → issues_at out (S i) = [])
  ∧ ∀ before line after,
      lines = before ++ line :: after → line ≠ [nl] →
      preceding_blank_line_counter (loop pep loop_start 1 before)
      = blank_run before
      ∧ (fires 6 (issues_at out (S (length before))) ↔ 2 < blank_run before)
      ∧ preceding_blank_line_counter
          (loop pep loop_start 1 (before ++ [line])) = 0.
Proof.
  simpl. split_and!; [done| |].
  - intros i Hi.
    destruct (issues_at_cases pep lines (S i)) as [H|(n & l & Hne & Hl & _)];
      [done|].
    simpl in Hl. rewrite Nat.sub_0_r in Hl. congruence.
  - intros before line after -> Hne. split_and!.
    + apply loop_counter.
    + rewrite issues_at_line by done. apply fires_S006.
    + rewrite loop_counter_snoc. by rewrite bool_decide_eq_false_2.
Qed.

(** ** The matcher finds the matches of the pattern *)

#[local] Arguments same_char : simpl never.
#[local] Arguments except : simpl never.
#[local] Arguments only : simpl never.

Lemma elem_of_flat_map {A B} (f : A → list B) (l : list A) (y : B) :
  y ∈ flat_map f l ↔ ∃ x, x ∈ l ∧ y ∈ f x.
Proof.
  rewrite list_elem_of_In, in_flat_map.
  by setoid_rewrite list_elem_of_In.
Qed.

Lemma spans_bounds ic s r i j :
  spans ic s r i j → i ≤ j ∧ (j = i ∨ j ≤ length s).
Proof.
  revert i j. induction r as [|c|p|a IHa b IHb|a IHa b IHb|a IH|n a IH|a IH|];
    intros i j; simpl.
  - lia.
  - intros (-> & x & Hx & _). apply lookup_lt_Some in Hx. lia.
  - intros (-> & x & Hx & _). apply lookup_lt_Some in Hx. lia.
  - intros (k & Ha%IHa & Hb%IHb). lia.
  - intros [H%IHa|H%IHb]; lia.
  - induction 1 as [i|i k j [Hlt Hik%IH] _ IHr]; lia.
  - apply IH.
  - lia.
  - lia.
Qed.

Lemma star_loop_spans body (D : nat → nat → Prop) (bound : nat) :
  (∀ i g j, (∃ g', (j, g') ∈ body i g) ↔ D i j) →
  (∀ i j, D i j → i ≤ j ∧ (j = i ∨ j ≤ bound)) →
  ∀ fuel i g j, bound - i < fuel →
    (∃ g', (j, g') ∈ star_loop body fuel i g)
    ↔ rtc (λ i j, i < j ∧ D i j) i j.
Proof.
  intros Hbody Hbound fuel.
  induction fuel as [|fuel IH]; intros i g j Hfuel; [lia|].
  simpl. split.
  - intros (g' & Hin). apply elem_of_app in Hin as [Hin|Hin].
    + apply elem_of_flat_map in Hin as ([k g1] & Hk & Hin).
      destruct (i <? k) eqn:E; [|by apply elem_of_nil in Hin].
      apply Nat.ltb_lt in E.
      assert (HD : D i k) by (apply (Hbody i g k); eauto).
      destruct (Hbound _ _ HD) as [_ Hb].
      eapply rtc_l; [split; [exact E|exact HD]|].
      apply (IH k g1 j); [lia|eauto].
    + apply list_elem_of_singleton in Hin. injection Hin as -> ->.
      apply rtc_refl.
  - intros Hr. apply rtc_inv in Hr as [->|(k & [Hlt HD] & Hr)].
    + exists g. apply elem_of_app. right. by apply list_elem_of_singleton.
    + destruct (proj2 (Hbody i g k) HD) as [g1 Hk].
      destruct (Hbound _ _ HD) as [_ Hb].
      destruct (proj2 (IH k g1 j ltac:(lia)) Hr) as [g' Hin].
      exists g'. apply elem_of_app. left.
      apply elem_of_flat_map. exists (k, g1). split; [done|].
      by rewrite (proj2 (Nat.ltb_lt i k) Hlt).
Qed.

(** The matcher is sound and complete for the pattern: it ends a match at
    [j] exactly when the pattern spans [i .. j]. *)
Theorem run_spans ic s r i g j :
  (∃ g', (j, g') ∈ run ic s r i g) ↔ spans ic s r i j.
Proof.
  revert i g j.
  induction r as [|c|p|a IHa b IHb|a IHa b IHb|a IH|n a IH|a IH|];
    intros i g j; simpl.
  - split.
    + intros (g' & H). apply list_elem_of_singleton in H. congruence.
    + intros ->. exists g. by apply list_elem_of_singleton.
  - destruct (s !! i) as [x|]; [destruct (same_char ic c x) eqn:E|].
    + split.
      * intros (g' & H). apply list_elem_of_singleton in H.
        injection H as -> _. eauto.
      * intros (-> & _). exists g. by apply list_elem_of_singleton.
    + split.
      * intros (g' & H). by apply elem_of_nil in H.
      * intros (_ & x' & [= <-] & Hx). congruence.
    + split.
      * intros (g' & H). by apply elem_of_nil in H.
      * intros (_ & x' & Hx & _). done.
  - destruct (s !! i) as [x|]; [destruct (p x) eqn:E|].
    + split.
      * intros (g' & H). apply list_elem_of_singleton in H.
        injection H as -> _. eauto.
      * intros (-> & _). exists g. by apply list_elem_of_singleton.
    + split.
      * intros (g' & H). by apply elem_of_nil in H.
      * intros (_ & x' & [= <-] & Hx). congruence.
    + split.
      * intros (g' & H). by apply elem_of_nil in H.
      * intros (_ & x' & Hx & _). done.
  - split.
    + intros (g' & H). apply elem_of_flat_map in H as ([k g1] & Hk & H).
      exists k. split; [apply (IHa i g k)|apply (IHb k g1 j)]; eauto.
    + intros (k & Ha & Hb).
      apply (IHa i g k) in Ha as [g1 Ha].
      apply (IHb k g1 j) in Hb as [g' Hb].
      exists g'. apply elem_of_flat_map. by exists (k, g1).
  - split.
    + intros (g' & H). apply elem_of_app in H as [H|H].
      * left. apply (IHa i g j). eauto.
      * right. apply (IHb i g j). eauto.
    + intros [H|H].
      * apply (IHa i g j) in H as [g' H]. exists g'. apply elem_of_app. auto.
      * apply (IHb i g j) in H as [g' H]. exists g'. apply elem_of_app. auto.
  - refine (star_loop_spans (run ic s a) (spans ic s a) (length s) _ _
              (S (length s)) i g j _).
    + intros. apply IH.
    + intros. by eapply spans_bounds.
    + lia.
  - rewrite <- (IH i g j). split.
    + intros (g' & H). apply list_elem_of_fmap in H as ([k g1] & [= -> ->] & H).
      eauto.
    + intros (g' & H). eexists. apply list_elem_of_fmap.
      exists (j, g'). split; [reflexivity|done].
  - destruct (run ic s a i g) as [|[k g1] rest] eqn:E.
    + split.
      * intros (g' & H). apply list_elem_of_singleton in H.
        injection H as -> _. split; [done|].
        intros (k & Hk). apply (IH i g k) in Hk as [g1 Hk].
        rewrite E in Hk. by apply elem_of_nil in Hk.
      * intros (-> & _). exists g. by apply list_elem_of_singleton.
    + split.
      * intros (g' & H). by apply elem_of_nil in H.
      * intros (_ & Hn). destruct Hn. exists k. apply (IH i g k).
        exists g1. rewrite E. apply list_elem_of_here.
  - destruct (i =? 0) eqn:E.
    + apply Nat.eqb_eq in E. split.
      * intros (g' & H). apply list_elem_of_singleton in H.
        injection H as -> _. done.
      * intros (-> & _). exists g. by apply list_elem_of_singleton.
    + apply Nat.eqb_neq in E. split.
      * intros (g' & H). by apply elem_of_nil in H.
      * intros (_ & ?). done.
Qed.

Lemma found_head {A} (l : list A) : found (head l) = true ↔ ∃ x, x ∈ l.
Proof.
  destruct l as [|x l]; simpl.
  - split; [done|]. intros (x & H). by apply elem_of_nil in H.
  - split; [|done]. intros _. exists x. apply list_elem_of_here.
Qed.

(** [re.match] succeeds exactly when the pattern spans a prefix. *)
Lemma re_match_spans ic r s :
  found (re_match ic r s) = true ↔ ∃ j, spans ic s r 0 j.
Proof.
  unfold re_match. rewrite found_head. split.
  - intros ([j g'] & H). exists j. apply (run_spans ic s r 0 ∅ j). eauto.
  - intros (j & H). apply (run_spans ic s r 0 ∅ j) in H as [g' H]. eauto.
Qed.

Lemma search_from_spans ic r s n i :
  found (search_from ic r s n i) = true
  ↔ ∃ k j, i ≤ k < i + n ∧ spans ic s r k j.
Proof.
  revert i. induction n as [|n IH]; intros i; simpl.
  - split; [done|]. intros (k & j & ? & _). lia.
  - destruct (head (run ic s r i ∅)) as [m|] eqn:E.
    + split; [|done]. intros _.
      assert (H : found (head (run ic s r i ∅)) = true) by by rewrite E.
      apply found_head in H as ([j g'] & H).
      exists i, j. split; [lia|]. apply (run_spans ic s r i ∅ j). eauto.
    + rewrite IH. split.
      * intros (k & j & ? & H). exists k, j. split; [lia|done].
      * intros (k & j & Hk & H). exists k, j. split; [|done].
        destruct (decide (k = i)) as [->|]; [|lia].
        apply (run_spans ic s r i ∅ j) in H as [g' H].
        destruct (run ic s r i ∅); [by apply elem_of_nil in H|done].
Qed.

(** [re.search] succeeds exactly when the pattern spans some stretch of
    the string. *)
Lemma re_search_spans ic r s :
  found (re_search ic r s) = true
  ↔ ∃ k j, k ≤ length s ∧ spans ic s r k j.
Proof.
  unfold re_search. rewrite search_from_spans. split.
  - intros (k & j & ? & H). exists k, j. split; [lia|done].
  - intros (k & j & ? & H). exists k, j. split; [lia|done].
Qed.

(** A run of characters of one class. *)
Lemma spans_star_class ic s (a : re) (p : ascii → bool) i j :
  (∀ i j, spans ic s a i j ↔ j = S i ∧ ∃ x, s !! i = Some x ∧ p x = true) →
  spans ic s (Star a) i j
  ↔ i ≤ j ∧ ∀ k, i ≤ k < j → ∃ x, s !! k = Some x ∧ p x = true.
Proof.
  intros Ha. simpl. split.
  - induction 1 as [i|i k j [Hlt Hik] _ [IH1 IH2]]; [split; [lia|intros; lia]|].
    apply Ha in Hik as [-> Hx]. split; [lia|].
    intros k Hk. destruct (decide (k = i)) as [->|]; [done|].
    apply IH2. lia.
  - intros [Hle Hall]. induction Hle as [|j Hle IH].
    + apply rtc_refl.
    + eapply rtc_r.
      * apply IH. intros k Hk. apply Hall. lia.
      * split; [lia|]. apply Ha. split; [done|]. apply Hall. lia.
Qed.

Lemma spans_star_Cls ic s p i j :
  spans ic s (Star (Cls p)) i j
  ↔ i ≤ j ∧ ∀ k, i ≤ k < j → ∃ x, s !! k = Some x ∧ p x = true.
Proof. by apply spans_star_class. Qed.

Lemma spans_star_Chr ic s c i j :
  spans ic s (Star (Chr c)) i j
  ↔ i ≤ j ∧ ∀ k, i ≤ k < j → ∃ x, s !! k = Some x ∧ same_char ic c x = true.
Proof. by apply (spans_star_class ic s (Chr c) (same_char ic c)). Qed.

(** One or more rounds start with one. *)
Lemma spans_plus_first ic s a i :
  (∃ j, spans ic s (Plus a) i j) ↔ ∃ j, spans ic s a i j.
Proof.
  unfold Plus. simpl. split.
  - intros (j & k & Ha & _). eauto.
  - intros (j & Ha). exists j, j. split; [done|apply rtc_refl].
Qed.

(** ** Positions and pieces of a string *)

Lemma class_run (s : str) (P : ascii → Prop) i j :
  i ≤ j →
  (∀ k, i ≤ k < j → ∃ x, s !! k = Some x ∧ P x)
  ↔ j - i ≤ length (drop i s) ∧ Forall P (take (j - i) (drop i s)).
Proof.
  intros Hij. rewrite Forall_lookup. split.
  - intros H. split.
    + rewrite length_drop. destruct (decide (i = j)) as [->|]; [lia|].
      destruct (H (j - 1)) as (x & Hx%lookup_lt_Some & _); lia.
    + intros k x Hk. apply lookup_take_Some in Hk as [Hk Hlt].
      rewrite lookup_drop in Hk.
      destruct (H (i + k)) as (x' & Hx' & HP); [lia|]. congruence.
  - intros [Hlen H] k Hk.
    assert (Hlk : is_Some (take (j - i) (drop i s) !! (k - i))).
    { apply lookup_lt_is_Some. rewrite length_take. lia. }
    destruct Hlk as [x Hx]. exists x. split; [|by eapply H].
    apply lookup_take_Some in Hx as [Hx _]. rewrite lookup_drop in Hx.
    by replace (i + (k - i)) with k in Hx by lia.
Qed.

Lemma Forall_eq_replicate (c : ascii) (l : str) :
  Forall (λ x, x = c) l → l = replicate (length l) c.
Proof. induction 1 as [|x l -> _ IH]; simpl; [done|]. by f_equal. Qed.

(** ** S003: the semicolon *)

Lemma except_true c x : except c x = true ↔ x ≠ c.
Proof.
  unfold except. rewrite negb_true_iff.
  destruct (Ascii.eqb_spec c x); split; congruence.
Qed.

Lemma same_char_exact c x : same_char false c x = true ↔ x = c.
Proof. unfold same_char. rewrite Ascii.eqb_eq. naive_solver. Qed.

Lemma found_semicolon line :
  found (re_search false re_semicolon line) = true
  ↔ semicolon_before_comment line.
Proof.
  rewrite re_search_spans. unfold re_semicolon, semicolon_before_comment.
  split.
  - intros (k & j & _ & k1 & [-> ->] & k2 & Hstar & k3 & Hsemi & -> & Hna).
    destruct Hsemi as (-> & x & Hx & Heq).
    apply same_char_exact in Heq as ->.
    apply spans_star_Cls in Hstar as [_ Hstar].
    apply (class_run line (λ x, except "#" x = true)) in Hstar as [_ Hstar];
      [|lia].
    rewrite Nat.sub_0_r, drop_0 in Hstar.
    exists (take k2 line), (drop (S k2) line). split_and!.
    + symmetry. by apply take_drop_middle.
    + intros Hin. rewrite Forall_forall in Hstar.
      apply Hstar in Hin. by apply except_true in Hin.
    + destruct (drop (S k2) line) as [|c rest] eqn:E; [done|].
      destruct (is_space c) eqn:Ec; [done|]. destruct Hna.
      exists (S (S k2)). split; [done|]. exists c. split.
      * rewrite <- (Nat.add_0_r (S k2)), <- lookup_drop. by rewrite E.
      * unfold non_space. by rewrite Ec.
  - intros (pre & post & -> & Hpre & Hpost).
    exists 0, (S (length pre)). split; [lia|].
    exists 0. split; [done|]. exists (length pre). split.
    + apply spans_star_Cls. split; [lia|]. intros k Hk.
      assert (Hl : is_Some (pre !! k)) by (apply lookup_lt_is_Some; lia).
      destruct Hl as [x Hx]. exists x. split.
      * by rewrite lookup_app_l by lia.
      * apply except_true. intros ->. apply Hpre.
        by eapply list_elem_of_lookup_2.
    + exists (S (length pre)). split.
      * split; [done|]. exists ";". split; [apply list_lookup_middle; done|].
        done.
      * split; [done|]. intros (k & -> & x & Hx & Hns).
        rewrite (lookup_app_r pre) in Hx by lia.
        replace (S (length pre) - length pre) with 1 in Hx by lia.
        simpl in Hx. destruct post as [|c rest]; [done|].
        injection Hx as ->. unfold non_space in Hns. by rewrite Hpost in Hns.
Qed.

Lemma fires_S003 pep n i line :
  S003 ∈ check_line pep n i line ↔ semicolon_before_comment line.
Proof.
  rewrite elem_of_check_line, <- found_semicolon. unfold s003.
  rewrite elem_of_when. simpl. naive_solver.
Qed.

(** ** S005: the TODO comment *)

Lemma same_char_folded c x : same_char true c x = true ↔ lower c = lower x.
Proof. unfold same_char. apply Ascii.eqb_eq. Qed.

Lemma lower_hash x : lower "#" = lower x ↔ x = "#".
Proof.
  destruct x as [[] [] [] [] [] [] [] []]; vm_compute; split; congruence.
Qed.

Lemma lower_space x : lower " " = lower x ↔ x = " ".
Proof.
  destruct x as [[] [] [] [] [] [] [] []]; vm_compute; split; congruence.
Qed.

Lemma same_chars_folded (w w' : str) :
  Forall2 (λ c x, same_char true c x = true) w w'
  ↔ lower <$> w = lower <$> w'.
Proof.
  revert w'. induction w as [|c w IH]; intros [|x w'].
  - split; [done|constructor].
  - split; [inversion 1|done].
  - split; [inversion 1|done].
  - rewrite Forall2_cons, !fmap_cons. split.
    + intros [Hc Hw]. apply same_char_folded in Hc. apply IH in Hw.
      congruence.
    + intros [= Hc Hw]. split; [by apply same_char_folded|by apply IH].
Qed.

Lemma spans_Lit_chars ic s w i j :
  spans ic s (Lit_chars w) i j
  ↔ j = i + length w
    ∧ ∃ w', take (length w) (drop i s) = w' ∧ length w' = length w
            ∧ Forall2 (λ c x, same_char ic c x = true) w w'.
Proof.
  revert i. induction w as [|c w IH]; intros i.
  - simpl. split.
    + intros ->. split; [lia|]. exists []. split_and!; [done..|constructor].
    + intros [-> _]. lia.
  - change (spans ic s (Lit_chars (c :: w)) i j)
      with (∃ k, (k = S i ∧ ∃ x, s !! i = Some x ∧ same_char ic c x = true)
                 ∧ spans ic s (Lit_chars w) k j).
    split.
    + intros (k & (-> & x & Hx & Hc) & (-> & w' & <- & Hlen & Hw)%IH).
      split; [simpl; lia|]. exists (x :: take (length w) (drop (S i) s)).
      split_and!.
      * by rewrite (drop_S _ _ _ Hx).
      * simpl. by rewrite Hlen.
      * by constructor.
    + intros (-> & w' & <- & Hlen & Hw).
      destruct (s !! i) as [x|] eqn:Hx.
      * rewrite (drop_S _ _ _ Hx) in Hlen, Hw. simpl in Hlen, Hw.
        apply Forall2_cons in Hw as [Hc Hw].
        exists (S i). split; [eauto|]. apply IH.
        split; [simpl; lia|]. eexists. split_and!; [done|lia|done].
      * apply lookup_ge_None in Hx. rewrite drop_ge in Hlen by done.
        by rewrite take_nil in Hlen.
Qed.

Lemma found_todo line :
  found (re_search true re_todo line) = true ↔ todo_right_after_hash line.
Proof.
  rewrite re_search_spans. unfold re_todo, todo_right_after_hash. split.
  - intros (k & j & _ & k1 & (-> & x & Hx & Hc) & k2 & Hstar & Hlit).
    apply same_char_folded, lower_hash in Hc as ->.
    apply spans_star_Chr in Hstar as [Hle Hstar].
    assert (Hsp : ∀ m, S k ≤ m < k2 → ∃ x, line !! m = Some x ∧ x = " ").
    { intros m Hm. destruct (Hstar m Hm) as (x & Hm' & Hc).
      apply same_char_folded, lower_space in Hc. eauto. }
    apply (class_run line (λ x, x = " ")) in Hsp as [Hlen Hsp]; [|done].
    apply spans_Lit_chars in Hlit as (-> & w' & Hw' & Hlen' & Hw).
    apply same_chars_folded in Hw. rewrite length_drop in Hlen.
    exists (take k line), (k2 - S k), w', (drop (k2 + length (lit "todo")) line).
    split; [|done].
    rewrite <- (take_drop_middle line k "#" Hx) at 1. do 2 f_equal.
    apply Forall_eq_replicate in Hsp.
    rewrite length_take, length_drop in Hsp.
    rewrite Nat.min_l in Hsp by lia.
    rewrite <- Hsp, <- Hw'.
    rewrite <- (take_drop (k2 - S k) (drop (S k) line)) at 1. f_equal.
    rewrite drop_drop. replace (S k + (k2 - S k)) with k2 by lia.
    rewrite <- (take_drop (length (lit "todo")) (drop k2 line)) at 1.
    by rewrite drop_drop.
  - intros (pre & n & word & post & -> & Hw).
    assert (Hlen : length word = 4)
      by (rewrite <- (length_fmap lower), Hw; done).
    exists (length pre), (S (length pre) + n + 4). split.
    { rewrite length_app. simpl. lia. }
    exists (S (length pre)). split.
    { split; [done|]. exists "#". split; [by apply list_lookup_middle|done]. }
    exists (S (length pre) + n). split.
    + apply spans_star_Chr. split; [lia|]. intros m Hm.
      exists " ". split; [|done].
      rewrite lookup_app_r by lia.
      replace (m - length pre) with (S (m - S (length pre))) by lia.
      simpl. rewrite lookup_app_l by (rewrite length_replicate; lia).
      apply lookup_replicate. split; [done|lia].
    + apply spans_Lit_chars. split; [done|]. exists word. split_and!.
      * change (lit "todo") with ["t"; "o"; "d"; "o"]. simpl length.
        rewrite (cons_middle "#" pre), app_assoc, (app_assoc _ (replicate n " ")).
        rewrite drop_app_length'.
        -- rewrite <- Hlen. apply take_app_length.
        -- rewrite !length_app, length_replicate. simpl. lia.
      * done.
      * by apply same_chars_folded.
Qed.

Lemma fires_S005 pep n i line :
  S005 ∈ check_line pep n i line ↔ todo_right_after_hash line.
Proof.
  rewrite elem_of_check_line, <- found_todo. unfold s005.
  rewrite elem_of_when. simpl. naive_solver.
Qed.

(** ** S002: the indentation *)

Lemma spans_four_spaces s i j :
  spans false s (Times 4 (Chr " ")) i j
  ↔ j = i + 4 ∧ ∀ k, i ≤ k < j → s !! k = Some " ".
Proof.
  simpl. split.
  - intros (k1 & (-> & x1 & H1 & ->%same_char_exact)
            & k2 & (-> & x2 & H2 & ->%same_char_exact)
            & k3 & (-> & x3 & H3 & ->%same_char_exact)
            & k4 & (-> & x4 & H4 & ->%same_char_exact) & ->).
    split; [lia|]. intros k Hk.
    assert (k = i ∨ k = S i ∨ k = S (S i) ∨ k = S (S (S i)))
      as [->|[->|[->| ->]]] by lia; done.
  - intros [-> H].
    exists (S i). split; [split; [done|]; exists " "; split; [apply H; lia|done]|].
    exists (S (S i)).
    split; [split; [done|]; exists " "; split; [apply H; lia|done]|].
    exists (S (S (S i))).
    split; [split; [done|]; exists " "; split; [apply H; lia|done]|].
    exists (S (S (S (S i)))).
    split; [split; [done|]; exists " "; split; [apply H; lia|done]|].
    lia.
Qed.

Lemma spans_star_fours s i j :
  spans false s (Star (Times 4 (Chr " "))) i j
  ↔ ∃ m, j = i + 4 * m ∧ ∀ k, i ≤ k < j → s !! k = Some " ".
Proof.
  change (spans false s (Star (Times 4 (Chr " "))) i j)
    with (rtc (λ i j, i < j ∧ spans false s (Times 4 (Chr " ")) i j) i j).
  split.
  - induction 1 as [i|i k j [_ [-> Hik]%spans_four_spaces] _ (m & -> & IH)].
    + exists 0. split; [lia|]. intros; lia.
    + exists (S m). split; [lia|]. intros k Hk.
      destruct (decide (k < i + 4)); [apply Hik|apply IH]; lia.
  - intros (m & -> & H). revert i H. induction m as [|m IH]; intros i H.
    + replace (i + 4 * 0) with i by lia. apply rtc_refl.
    + apply (rtc_l _ _ (i + 4)).
      * split; [lia|]. apply spans_four_spaces. split; [done|].
        intros k Hk. apply H. lia.
      * replace (i + 4 * S m) with (i + 4 + 4 * m) by lia.
        apply IH. intros k Hk. apply H. lia.
Qed.

Lemma indent_pattern_spans line :
  (∃ k, spans false line
          (Bol ⋅ Star (Times 4 (Chr " ")) ⋅ Cls (except " ")) 0 k)
  ↔ indented_by_fours line.
Proof.
  unfold indented_by_fours. split.
  - intros (k & k1 & [-> _] & k2 & Hstar & -> & x & Hx & Hne).
    apply spans_star_fours in Hstar as (m & -> & Hsp).
    apply except_true in Hne. exists m, x, (drop (S (4 * m)) line).
    split; [|done]. simpl in Hx, Hsp.
    rewrite <- (take_drop_middle line (4 * m) x Hx) at 1. f_equal.
    assert (H : ∀ k, 0 ≤ k < 4 * m → ∃ y, line !! k = Some y ∧ y = " ")
      by (intros; eauto).
    apply (class_run line (λ y, y = " ")) in H as [_ H]; [|lia].
    rewrite Nat.sub_0_r, drop_0 in H. apply Forall_eq_replicate in H.
    rewrite length_take in H. apply lookup_lt_Some in Hx.
    by rewrite Nat.min_l in H by lia.
  - intros (m & c & rest & -> & Hc).
    exists (S (4 * m)), 0. split; [done|]. exists (4 * m). split.
    + apply spans_star_fours. exists m. split; [done|]. intros k Hk.
      rewrite lookup_app_l by (rewrite length_replicate; lia).
      apply lookup_replicate. split; [done|lia].
    + split; [done|]. exists c. split.
      * apply list_lookup_middle. by rewrite length_replicate.
      * by apply except_true.
Qed.

Lemma found_indent line :
  found (re_match false re_indent line) = true ↔ ¬ indented_by_fours line.
Proof.
  rewrite re_match_spans, <- indent_pattern_spans. unfold re_indent. split.
  - intros (j & _ & H). exact H.
  - intros H. exists 0. split; [done|exact H].
Qed.

Lemma fires_S002 pep n i line :
  S002 ∈ check_line pep n i line ↔ ¬ indented_by_fours line.
Proof.
  rewrite elem_of_check_line, <- found_indent. unfold s002.
  rewrite elem_of_when. simpl. naive_solver.
Qed.


(** C9, as the code has it.  S003 is printed for a line exactly when a
    semicolon that stands before the first [#] of the line, whether that
    [#] opens a comment or stands in a string literal, is followed by
    white space or ends the line; a semicolon after the first [#], so
    any semicolon inside a comment, does not make it fire.  So the line
    [x = 5;] gets S003 and [x = 5  # trailing ; in comment] does not. *)
Theorem S003_semicolon_outside_comment pep before after :
  (∀ line, line ≠ [nl] →
     S003 ∈ printed_for pep before line after
     ↔ semicolon_before_comment line)
  ∧ (∀ line, line ≠ [nl] →
       (∀ pre post, line = pre ++ ";" :: post → "#" ∈ pre) →
       S003 ∉ printed_for pep before line after)
  ∧ S003 ∈ printed_for pep before (lit "x = 5;" ++ [nl]) after
  ∧ S003 ∉ printed_for pep before
             (lit "x = 5  # trailing ; in comment" ++ [nl]) after.
Proof.
  split_and!.
  - intros line Hl. rewrite printed_for_line by done. apply fires_S003.
  - intros line Hl Hin. rewrite printed_for_line by done.
    rewrite fires_S003. intros (pre & post & -> & Hpre & _).
    apply Hpre. by eapply Hin.
  - rewrite printed_for_line by done.
    rewrite fires_S003, <- found_semicolon. by vm_compute.
  - rewrite printed_for_line by done.
    rewrite fires_S003, <- found_semicolon. by vm_compute.
Qed.

Lemma S003_semicolon_outside_comment_witness :
  S003 ∈ printed_for new_stats [] (lit "x = 5; y = 6" ++ [nl]) []
  ∧ S003 ∉ printed_for new_stats [] (lit "#;" ++ [nl]) [].
Proof.
  destruct (S003_semicolon_outside_comment new_stats [] []) as (H1 & H2 & _).
  split.
  - apply H1; [discriminate|].
    exists (lit "x = 5"), (lit " y = 6" ++ [nl]).
    split_and!; [reflexivity| |reflexivity].
    intros H. apply list_elem_of_In in H. simpl in H.
    repeat (destruct H as [H|H]; [discriminate H|]). exact H.
  - apply H2; [discriminate|].
    intros [|c pre] post Heq; cbn in Heq.
    + discriminate Heq.
    + injection Heq as <- _. apply list_elem_of_here.
Defined.

(** C9 as stated fails: in [s = '#';] the semicolon separates
    statements outside of any comment and ends the line, the [#] before
    it being in a string literal, and S003 is not printed. *)
Lemma S003_misses_separator_after_hash_in_string :
  separator_outside_comment (lit "s = '#';" ++ [nl])
  ∧ S003 ∉ printed_for new_stats [] (lit "s = '#';" ++ [nl]) [].
Proof.
  split.
  - exists (lit "s = '#'"), [nl]. split_and!; reflexivity.
  - rewrite printed_for_line by done.
    rewrite fires_S003, <- found_semicolon. by vm_compute.
Qed.

(** On a line without quotes the two readings are one: a [#] of such a
    line opens a comment. *)
Lemma place_after_comment pre : foldl lex_step in_comment pre = in_comment.
Proof. induction pre as [|c pre IH]; [done|]. exact IH. Qed.

Lemma place_after_plain pre :
  "'" ∉ pre → "034" ∉ pre → place_after pre = in_code ↔ "#" ∉ pre.
Proof.
  unfold place_after. induction pre as [|c pre IH]; intros Hs Hd.
  - split; [intros _; apply not_elem_of_nil|done].
  - apply not_elem_of_cons in Hs as [Hs1 Hs2].
    apply not_elem_of_cons in Hd as [Hd1 Hd2].
    simpl. rewrite not_elem_of_cons.
    destruct (Ascii.eqb_spec c "#") as [->|Hc].
    + rewrite place_after_comment. split; [done|]. intros [? _]. done.
    + destruct (Ascii.eqb_spec c "'") as [->|_]; [done|].
      destruct (Ascii.eqb_spec c "034") as [->|_]; [done|].
      simpl. rewrite IH by done. split; [|tauto].
      intros H. split; [congruence|done].
Qed.

Lemma separator_without_quotes line :
  "'" ∉ line → "034" ∉ line →
  separator_outside_comment line ↔ semicolon_before_comment line.
Proof.
  intros Hs Hd. unfold separator_outside_comment, semicolon_before_comment.
  split.
  - intros (pre & post & -> & Hpre & Hpost). exists pre, post.
    split_and!; [done| |done].
    apply place_after_plain; [| |done]; set_solver.
  - intros (pre & post & -> & Hpre & Hpost). exists pre, post.
    split_and!; [done| |done].
    apply place_after_plain; [| |done]; set_solver.
Qed.

(** C2, as the code has it.  For every non-blank line, S005 is printed
    exactly when the line has a [#] followed by spaces only (possibly
    none) and then directly by "todo" in either case. *)
Theorem S005_todo_right_after_hash pep before line after :
  line ≠ [nl] →
  S005 ∈ printed_for pep before line after ↔ todo_right_after_hash line.
Proof. intros Hl. rewrite printed_for_line by done. apply fires_S005. Qed.

Lemma S005_todo_right_after_hash_witness :
  S005 ∈ printed_for new_stats [] (lit "x = 1  #  ToDo: fix" ++ [nl]) [].
Proof.
  apply (S005_todo_right_after_hash new_stats []
           (lit "x = 1  #  ToDo: fix" ++ [nl]) []); [discriminate|].
  exists (lit "x = 1  "), 2, (lit "ToDo"), (lit ": fix" ++ [nl]).
  split; reflexivity.
Defined.

(** C2 as stated fails: "todo" later in the comment, after other words,
    is after a [#] and yet S005 is not printed. *)
Lemma S005_misses_todo_later_in_comment :
  todo_anywhere_after_hash (lit "x = 1  # fix todo" ++ [nl])
  ∧ S005 ∉ printed_for new_stats [] (lit "x = 1  # fix todo" ++ [nl]) [].
Proof.
  split.
  - exists (lit "x = 1  "), (lit " fix "), (lit "todo"), [nl].
    split; reflexivity.
  - vm_compute. intros H. inversion H.
Qed.

(** ** Lines of white space *)



Lemma blank_run_counter_witness :
  fires 6
    (issues_at
       (printed (loop new_stats loop_start 1
                      [[nl]; [nl]; [nl]; lit "x = 1" ++ [nl]]))
       4)
  ∧ issues_at
      (printed (loop new_stats loop_start 1
                     [[nl]; [nl]; [nl]; lit "x = 1" ++ [nl]]))
      3 = [].
Proof.
  destruct (blank_run_counter new_stats [[nl]; [nl]; [nl]; lit "x = 1" ++ [nl]])
    as (_ & Hb & H).
  split.
  - destruct (H [[nl]; [nl]; [nl]] (lit "x = 1" ++ [nl]) [] eq_refl)
      as (_ & H6 & _); [discriminate|].
    apply H6. vm_compute. repeat constructor.
  - apply (Hb 2). reflexivity.
Defined.

(** ** S008 and S009: the names of classes and functions *)

Lemma fires_segment c k seg :
  prints_at_most k seg → fires c seg ↔ c = k ∧ seg ≠ [].
Proof.
  intros [->|(e & -> & <-)]; unfold fires; simpl.
  - rewrite elem_of_nil. naive_solver.
  - rewrite list_elem_of_singleton. naive_solver.
Qed.

Lemma fires_check_line c pep n i line :
  fires c (check_line pep n i line) ↔
    (c = 1 ∧ s001 line ≠ []) ∨ (c = 2 ∧ s002 line ≠ [])
    ∨ (c = 3 ∧ s003 line ≠ []) ∨ (c = 4 ∧ s004 line ≠ [])
    ∨ (c = 5 ∧ s005 line ≠ []) ∨ (c = 6 ∧ s006 n ≠ [])
    ∨ (c = 7 ∧ s007 line ≠ []) ∨ (c = 8 ∧ s008 line ≠ [])
    ∨ (c = 9 ∧ s009 line ≠ []) ∨ (c = 10 ∧ s010 pep i ≠ [])
    ∨ (c = 11 ∧ s011 pep i ≠ []) ∨ (c = 12 ∧ s012 pep i ≠ []).
Proof.
  unfold check_line, fires. rewrite !fmap_app, !elem_of_app.
  fold (fires c (s001 line)) (fires c (s002 line)) (fires c (s003 line))
    (fires c (s004 line)) (fires c (s005 line)) (fires c (s006 n))
    (fires c (s007 line)) (fires c (s008 line)) (fires c (s009 line))
    (fires c (s010 pep i)) (fires c (s011 pep i)) (fires c (s012 pep i)).
  rewrite (fires_segment c 1), (fires_segment c 2), (fires_segment c 3),
    (fires_segment c 4), (fires_segment c 5), (fires_segment c 6),
    (fires_segment c 7), (fires_segment c 8), (fires_segment c 9),
    (fires_segment c 10), (fires_segment c 11), (fires_segment c 12)
    by auto with checks.
  done.
Qed.

Lemma fires_S008 pep n i line :
  fires 8 (check_line pep n i line) ↔ s008 line ≠ [].
Proof. rewrite fires_check_line. naive_solver. Qed.

Lemma fires_S009 pep n i line :
  fires 9 (check_line pep n i line) ↔ s009 line ≠ [].
Proof. rewrite fires_check_line. naive_solver. Qed.

Lemma fires_S012 pep n i line :
  fires 12 (check_line pep n i line) ↔ s012 pep i ≠ [].
Proof. rewrite fires_check_line. naive_solver. Qed.

Lemma elem_of_S008 name pep n i line :
  S008 name ∈ check_line pep n i line ↔ S008 name ∈ s008 line.
Proof. rewrite elem_of_check_line. simpl. naive_solver. Qed.

Lemma elem_of_S009 name pep n i line :
  S009 name ∈ check_line pep n i line ↔ S009 name ∈ s009 line.
Proof. rewrite elem_of_check_line. simpl. naive_solver. Qed.

(** The test [re.match(r"[a-z_]+", name)] looks at the first character
    only. *)
Lemma snake_test_first_character name :
  found (re_match false re_snake name) = true
  ↔ ∃ c rest, name = c :: rest ∧ (in_range "a" "z" c || only "_" c) = true.
Proof.
  rewrite re_match_spans. unfold re_snake. rewrite spans_plus_first. split.
  - intros (j & -> & x & Hx & Hp). destruct name as [|c rest]; [done|].
    injection Hx as ->. eauto.
  - intros (c & rest & -> & Hp). exists 1. split; [done|]. by exists c.
Qed.

(** The test [re.match(r"(?:[A-Z][a-z0-9]+)+", name)] looks at the first
    two characters only. *)
Lemma camel_test_first_characters name :
  found (re_match false re_camel name) = true
  ↔ ∃ c1 c2 rest, name = c1 :: c2 :: rest
                  ∧ in_range "A" "Z" c1 = true
                  ∧ (in_range "a" "z" c2 || in_range "0" "9" c2) = true.
Proof.
  rewrite re_match_spans. unfold re_camel. rewrite spans_plus_first. split.
  - intros (j & k & (-> & x & Hx & Hp) & Hrest).
    assert (H : ∃ j, spans false name
             (Plus (Cls (λ c, in_range "a" "z" c || in_range "0" "9" c))) 1 j)
      by eauto.
    apply spans_plus_first in H as (j' & -> & y & Hy & Hq).
    destruct name as [|c1 [|c2 rest]]; [done..|].
    injection Hx as <-. injection Hy as <-. by exists c1, c2, rest.
  - intros (c1 & c2 & rest & -> & H1 & H2).
    assert (H : ∃ j, spans false (c1 :: c2 :: rest)
             (Plus (Cls (λ c, in_range "a" "z" c || in_range "0" "9" c))) 1 j).
    { apply spans_plus_first. exists 2. split; [done|]. by exists c2. }
    destruct H as (j & H). exists j, 1. split; [|done].
    split; [done|]. by exists c1.
Qed.

(** *** The name a declaration line reports *)

Lemma leading_take p s : take (length (leading p s)) s = leading p s.
Proof.
  induction s as [|c s IH]; [done|]. simpl.
  destruct (p c); simpl; [by rewrite IH|done].
Qed.

Lemma leading_lookup p s j :
  j < length (leading p s) → ∃ x, s !! j = Some x ∧ p x = true.
Proof.
  revert j. induction s as [|c s IH]; intros j; simpl; [lia|].
  destruct (p c) eqn:E; simpl; [|lia].
  destruct j as [|j]; [eauto|]. intros H. apply IH. lia.
Qed.

(** Greedy repetition of a class: the longest run first, then each
    shorter one. *)
Lemma star_loop_Cls ic s p fuel i g :
  length s - i < fuel →
  star_loop (run ic s (Cls p)) fuel i g
  = (λ j, (j, g)) <$> reverse (seq i (S (length (leading p (drop i s))))).
Proof.
  revert i. induction fuel as [|fuel IH]; intros i Hfuel; [lia|].
  simpl star_loop. simpl run.
  destruct (s !! i) as [x|] eqn:Hx.
  - rewrite (drop_S _ _ _ Hx). simpl leading.
    apply lookup_lt_Some in Hx.
    destruct (p x); simpl flat_map.
    + rewrite (proj2 (Nat.ltb_lt i (S i))) by lia.
      rewrite app_nil_r, IH by lia.
      change (seq i (S (length (x :: leading p (drop (S i) s)))))
        with (i :: seq (S i) (S (length (leading p (drop (S i) s))))).
      by rewrite reverse_cons, fmap_app.
    + done.
  - apply lookup_ge_None in Hx. rewrite drop_ge by done. done.
Qed.

Lemma run_star_Cls ic s p i g :
  run ic s (Star (Cls p)) i g
  = (λ j, (j, g)) <$> reverse (seq i (S (length (leading p (drop i s))))).
Proof. apply star_loop_Cls. lia. Qed.

Lemma run_Lit_chars s w j g :
  run false s (Lit_chars w) j g
  = if bool_decide (take (length w) (drop j s) = w)
    then [(j + length w, g)] else [].
Proof.
  revert j. induction w as [|c w IH]; intros j.
  - simpl. by rewrite Nat.add_0_r.
  - simpl run. destruct (s !! j) as [x|] eqn:Hx.
    + rewrite (drop_S _ _ _ Hx). simpl take. unfold same_char.
      destruct (Ascii.eqb_spec c x) as [->|Hne]; simpl flat_map.
      * rewrite app_nil_r, IH.
        destruct (bool_decide_reflect (take (length w) (drop (S j) s) = w))
          as [E|E].
        -- rewrite bool_decide_eq_true_2 by (by rewrite E).
           simpl. do 2 f_equal. lia.
        -- rewrite bool_decide_eq_false_2; [done|]. intros [= ?]. done.
      * rewrite bool_decide_eq_false_2; [done|]. intros [= ? ?]. done.
    + apply lookup_ge_None in Hx. rewrite drop_ge, take_nil by done.
      by rewrite bool_decide_eq_false_2.
Qed.

Lemma run_Cat ic s a b i g :
  run ic s (a ⋅ b) i g
  = flat_map (λ '(j, g'), run ic s b j g') (run ic s a i g).
Proof. done. Qed.

Lemma run_Cls ic s p i g :
  run ic s (Cls p) i g
  = match s !! i with
    | Some x => if p x then [(S i, g)] else []
    | None => []
    end.
Proof. done. Qed.

Lemma flat_map_one {A B} (f : A → list B) (x : A) : flat_map f [x] = f x.
Proof. simpl. apply app_nil_r. Qed.

Lemma flat_map_first {A B} (f : A → list B) (x : A) (l : list A) :
  flat_map f (x :: l) = f x ++ flat_map f l.
Proof. done. Qed.

Lemma flat_map_nothing {A B} (f : A → list B) (l : list A) :
  (∀ x, x ∈ l → f x = []) → flat_map f l = [].
Proof.
  induction l as [|x l IH]; [done|]. intros H. simpl.
  rewrite (H x) by apply list_elem_of_here.
  apply IH. intros y Hy. apply H. by apply list_elem_of_further.
Qed.

(** The group [name] takes the longest run of word characters. *)
Lemma run_name line j :
  head (run false line (Grp "name" (Plus (Cls is_word))) j ∅)
  = match leading is_word (drop j line) with
    | [] => None
    | name => Some (j + length name, {["name"%string := name]})
    end.
Proof.
  change (run false line (Grp "name" (Plus (Cls is_word))) j ∅)
    with (map (λ '(k, g'), (k, <["name"%string := slice line j k]> g'))
              (flat_map (λ '(k, g'), run false line (Star (Cls is_word)) k g')
                        (run false line (Cls is_word) j ∅))).
  rewrite run_Cls. destruct (line !! j) as [x|] eqn:Hx.
  - rewrite (drop_S _ _ _ Hx). simpl leading.
    destruct (is_word x); [|done].
    rewrite flat_map_one, run_star_Cls.
    set (n := length (leading is_word (drop (S j) line))).
    rewrite seq_S, reverse_snoc. simpl. do 2 f_equal.
    + lia.
    + unfold slice. rewrite (drop_S _ _ _ Hx).
      replace (S (j + n) - j) with (S n) by lia.
      simpl take. unfold n. rewrite leading_take. apply insert_empty.
  - apply lookup_ge_None in Hx. by rewrite drop_ge by done.
Qed.

Lemma only_true c x : only c x = true ↔ x = c.
Proof. unfold only. rewrite Ascii.eqb_eq. naive_solver. Qed.

(** What a declaration pattern captures as the name. *)
Lemma re_match_declaration c keyword line :
  c ≠ " " →
  (λ m, group m "name") <$> re_match false (re_declaration (c :: keyword))
                              line
  = declared_name (c :: keyword) line.
Proof.
  intros Hc. unfold re_match, re_declaration, declared_name.
  rewrite run_Cat. change (run false line Bol 0 ∅) with [(0, ∅ : groups)].
  rewrite flat_map_one.
  rewrite run_Cat. unfold space. rewrite run_star_Cls, drop_0.
  set (k := length (leading (only " ") line)).
  rewrite seq_S, reverse_snoc, fmap_cons, flat_map_first.
  change (0 + k) with k.
  rewrite (flat_map_nothing _ (_ <$> _)), app_nil_r.
  - cbv beta iota. rewrite run_Cat, run_Lit_chars.
    destruct (bool_decide (take (length (c :: keyword)) (drop k line)
                           = c :: keyword)); [|done].
    rewrite flat_map_one, run_name, drop_drop.
    destruct (leading is_word (drop (k + length (c :: keyword)) line))
      as [|x name]; [done|].
    simpl. f_equal.
  - intros [j g] Hj. apply list_elem_of_fmap in Hj as (j' & [= -> ->] & Hj).
    apply elem_of_reverse, list_elem_of_In, in_seq in Hj.
    destruct (leading_lookup (only " ") line j' ltac:(lia))
      as (x & Hx & ->%only_true).
    rewrite run_Cat, run_Lit_chars, (drop_S _ _ _ Hx).
    rewrite bool_decide_eq_false_2; [done|].
    simpl. intros [= ? _]. done.
Qed.

(** S009 reports the name the line declares with [def], when its first
    character is not a lowercase letter or an underscore. *)
Lemma s009_reports line :
  s009 line
  = match declared_name (lit "def ") line with
    | Some name => when (not_snake name) (S009 name)
    | None => []
    end.
Proof.
  rewrite <- (re_match_declaration "d" (lit "ef ")) by done.
  unfold s009. change (re_declaration ("d" :: lit "ef ")) with re_def.
  by destruct (re_match false re_def line).
Qed.

(** S008 reports the name the line declares with [class], when its first
    two characters are not an uppercase letter and then a lowercase
    letter or a digit. *)
Lemma s008_reports line :
  s008 line
  = match declared_name (lit "class ") line with
    | Some name =>
        when (negb (found (re_match false re_camel name))) (S008 name)
    | None => []
    end.
Proof.
  rewrite <- (re_match_declaration "c" (lit "lass ")) by done.
  unfold s008. change (re_declaration ("c" :: lit "lass ")) with re_class.
  by destruct (re_match false re_class line).
Qed.

(** On the code, S009 is printed with [name] exactly when the line
    declares [name] with [def] and the first character of [name] is
    neither a lowercase letter nor an underscore. *)
Lemma S009_printed_iff pep before line after name :
  line ≠ [nl] →
  S009 name ∈ printed_for pep before line after
  ↔ declared_name (lit "def ") line = Some name
    ∧ ¬ ∃ c rest, name = c :: rest
                  ∧ (in_range "a" "z" c || only "_" c) = true.
Proof.
  intros Hl. rewrite printed_for_line by done.
  rewrite elem_of_S009, s009_reports, <- snake_test_first_character.
  destruct (declared_name (lit "def ") line) as [name'|].
  - rewrite elem_of_when. unfold not_snake. rewrite negb_true_iff.
    split.
    + intros [H [= ->]]. rewrite H. split; [done|discriminate].
    + intros [[= ->] H]. split; [|done].
      by destruct (found (re_match false re_snake name)).
  - rewrite elem_of_nil. naive_solver.
Qed.

(** On the code, S008 is printed with [name] exactly when the line
    declares [name] with [class] and [name] does not start with an
    uppercase letter followed by a lowercase letter or a digit. *)
Lemma S008_printed_iff pep before line after name :
  line ≠ [nl] →
  S008 name ∈ printed_for pep before line after
  ↔ declared_name (lit "class ") line = Some name
    ∧ ¬ ∃ c1 c2 rest, name = c1 :: c2 :: rest
                      ∧ in_range "A" "Z" c1 = true
                      ∧ (in_range "a" "z" c2 || in_range "0" "9" c2) = true.
Proof.
  intros Hl. rewrite printed_for_line by done.
  rewrite elem_of_S008, s008_reports, <- camel_test_first_characters.
  destruct (declared_name (lit "class ") line) as [name'|].
  - rewrite elem_of_when, negb_true_iff.
    split.
    + intros [H [= ->]]. rewrite H. split; [done|discriminate].
    + intros [[= ->] H]. split; [|done].
      by destruct (found (re_match false re_camel name)).
  - rewrite elem_of_nil. naive_solver.
Qed.

(** C1 on the code.  For the line [def myFunc(a, b):] no S009 is
    printed, whatever the file around it: the test of the name accepts
    [myFunc] for its first letters.  For [def my_func(a, b):] none is
    printed either, and [def MyFunc(a, b):] gets S009 with the name. *)
Theorem S009_not_printed_for_myFunc pep before after :
  ¬ fires 9 (printed_for pep before (lit "def myFunc(a, b):" ++ [nl]) after)
  ∧ ¬ fires 9 (printed_for pep before (lit "def my_func(a, b):" ++ [nl]) after)
  ∧ S009 (lit "MyFunc")
    ∈ printed_for pep before (lit "def MyFunc(a, b):" ++ [nl]) after.
Proof.
  rewrite !printed_for_line by done.
  rewrite !fires_S009, elem_of_S009. split_and!.
  - intros H. by apply H.
  - intros H. by apply H.
  - vm_compute. apply list_elem_of_here.
Qed.

(** C5 on the code.  For the line [class Foo_bar:] no S008 is printed,
    whatever the file around it: the test of the name accepts [Foo_bar]
    for its first word.  [class fooBar:] gets S008 with the name and
    [class FooBar:] gets none. *)
Theorem S008_not_printed_for_Foo_bar pep before after :
  ¬ fires 8 (printed_for pep before (lit "class Foo_bar:" ++ [nl]) after)
  ∧ S008 (lit "fooBar")
    ∈ printed_for pep before (lit "class fooBar:" ++ [nl]) after
  ∧ ¬ fires 8 (printed_for pep before (lit "class FooBar:" ++ [nl]) after).
Proof.
  rewrite !printed_for_line by done.
  rewrite !fires_S008, elem_of_S008. split_and!.
  - intros H. by apply H.
  - vm_compute. apply list_elem_of_here.
  - intros H. by apply H.
Qed.

(** ** The run on one file *)

Lemma analyze_file_prints w filename text tree :
  read_text w filename = inr text →
  ast_parse w text = inr tree →
  exceeds_recursion_limit w tree = false →
  analyze_file w filename
  = Outcome
      (render filename
       <$> printed (loop (visit tree new_stats) loop_start 1 (lines_of text)))
      None.
Proof. intros Hr Hp Hv. unfold analyze_file. by rewrite Hr, Hp, Hv. Qed.

(** The lines of a text, put together again, are the text. *)
Lemma lines_of_concat text : concat (lines_of text) = text.
Proof.
  induction text as [|c rest IH]; [done|]. simpl.
  destruct (Ascii.eqb c nl); simpl; [by rewrite IH|].
  destruct (lines_of rest) as [|line more]; simpl in *; by rewrite <- IH.
Qed.

(** Only the last line of a text can lack its newline, and a newline is
    the last character of its line. *)
Lemma lines_of_shape text :
  Forall (λ line, ∃ body, (line = body ++ [nl] ∨ line = body ∧ body ≠ [])
                          ∧ nl ∉ body)
         (lines_of text).
Proof.
  induction text as [|c rest IH]; [constructor|]. simpl.
  destruct (Ascii.eqb_spec c nl) as [->|Hc].
  - constructor; [|done]. exists []. split; [by left|apply not_elem_of_nil].
  - destruct (lines_of rest) as [|line more].
    + repeat constructor. exists [c]. split; [by right|].
      rewrite list_elem_of_singleton. congruence.
    + apply Forall_cons in IH as [(body & Hline & Hb) IH].
      constructor; [|done]. exists (c :: body). split.
      * destruct Hline as [->|[-> _]]; [by left|by right].
      * rewrite not_elem_of_cons. split; [congruence|done].
Qed.

(** ** Directories *)

Lemma analyze_file_raised w filename e :
  raised (analyze_file w filename) = Some e →
  stdout (analyze_file w filename) = [].
Proof.
  unfold analyze_file.
  destruct (read_text w filename) as [e1|text]; [done|].
  destruct (ast_parse w text) as [e2|tree]; [done|].
  by destruct (exceeds_recursion_limit w tree).
Qed.

Lemma analyze_scripts_all w pathname scripts :
  Forall (analyzable w pathname) scripts →
  analyze_scripts w pathname scripts
  = Outcome (outputs_of w pathname scripts) None.
Proof.
  induction 1 as [|script rest Hs _ IH]; [done|].
  simpl. unfold analyzable in Hs. rewrite Hs, IH. done.
Qed.

Lemma analyze_scripts_stops w pathname before bad after e :
  Forall (analyzable w pathname) before →
  raised (analyze_file w (path_join pathname bad)) = Some e →
  analyze_scripts w pathname (before ++ bad :: after)
  = Outcome (outputs_of w pathname before) (Some e).
Proof.
  intros Hb Hbad. induction Hb as [|script rest Hs _ IH]; simpl.
  - rewrite Hbad.
    destruct (analyze_file w (path_join pathname bad)) as [out r] eqn:E.
    simpl in Hbad. subst r.
    assert (H : stdout (analyze_file w (path_join pathname bad)) = []).
    { apply (analyze_file_raised _ _ e). by rewrite E. }
    rewrite E in H. simpl in H. by subst out.
  - unfold analyzable in Hs. rewrite Hs, IH. done.
Qed.

(** C3, as the code has it.  The entries of a directory are analyzed in
    the order of the listing.  When all can be analyzed, the output is
    that of each in turn.  When one cannot, its exception ends the run:
    what the entries before it printed has been printed, the failing one
    prints nothing, and the entries after it are not analyzed. *)
Theorem directory_run_ends_at_first_failure w pathname scripts :
  isfile w pathname = false →
  isdir w pathname = true →
  listdir w pathname = inr scripts →
  (Forall (analyzable w pathname) scripts →
   analyze_pathname w pathname
   = Outcome (outputs_of w pathname scripts) None)
  ∧ (∀ before bad after e,
       scripts = before ++ bad :: after →
       Forall (analyzable w pathname) before →
       raised (analyze_file w (path_join pathname bad)) = Some e →
       analyze_pathname w pathname
       = Outcome (outputs_of w pathname before) (Some e)).
Proof.
  intros Hf Hd Hl. unfold analyze_pathname. rewrite Hf, Hd, Hl. split.
  - apply analyze_scripts_all.
  - intros before bad after e -> Hb Hbad.
    by apply analyze_scripts_stops.
Qed.

Lemma directory_run_ends_at_first_failure_witness :
  analyze_pathname two_files (lit "d") = Outcome [] (Some SyntaxError).
Proof.
  destruct (directory_run_ends_at_first_failure two_files (lit "d")
              [lit "a.py"; lit "b.py"] eq_refl eq_refl eq_refl) as [_ H].
  apply (H [] (lit "a.py") [lit "b.py"] SyntaxError eq_refl).
  - constructor.
  - reflexivity.
Defined.

(** C3 as stated fails: in the directory [d] the file [b.py] can be
    analyzed and gets S003 on its own, but after [a.py] has failed
    nothing is printed for it. *)
Lemma directory_failure_silences_siblings :
  lit "b.py" ∈ [lit "a.py"; lit "b.py"]
  ∧ listdir two_files (lit "d") = inr [lit "a.py"; lit "b.py"]
  ∧ analyze_file two_files (lit "d/b.py")
    = Outcome [lit "d/b.py: Line 1: S003 Unnecessary semicolon"] None
  ∧ analyze_pathname two_files (lit "d") = Outcome [] (Some SyntaxError).
Proof.
  split_and!.
  - apply list_elem_of_further, list_elem_of_here.
  - reflexivity.
  - vm_compute. reflexivity.
  - vm_compute. reflexivity.
Qed.

(** ** What the visitor records for a line *)

Lemma append_at_lookup {A} (l i : nat) (x : A) (t : gmap nat (list A)) :
  append_at l x t !!! i = if decide (l = i) then t !!! i ++ [x] else t !!! i.
Proof.
  unfold append_at. destruct (decide (l = i)) as [->|Hne].
  - by rewrite lookup_total_insert_eq.
  - by rewrite lookup_total_insert_ne.
Qed.

Lemma adds_nothing i : adds i (λ st, st) [].
Proof. intros st. by rewrite !app_nil_r. Qed.

Lemma adds_then i F1 F2 fs1 fs2 :
  adds i F1 fs1 → adds i F2 fs2 → adds i (λ st, F2 (F1 st)) (fs1 ++ fs2).
Proof.
  intros H1 H2 st. destruct (H1 st) as [P1 D1].
  destruct (H2 (F1 st)) as [P2 D2].
  unfold names_of, flags_of in *. rewrite !flat_map_app.
  rewrite P2, P1, D2, D1, !app_assoc. done.
Qed.

Lemma adds_ext i F G fs : (∀ st, F st = G st) → adds i F fs → adds i G fs.
Proof. intros E H st. rewrite <- E. apply H. Qed.

Lemma adds_each {A} i (f : A → stats → stats)
    (g : A → list (nat * arguments)) (xs : list A) :
  list_all A (λ x, adds i (f x) (g x)) xs →
  adds i (visit_each f xs) (flat_map g xs).
Proof.
  unfold visit_each. induction 1 as [|x Hx xs _ IH]; simpl.
  - apply adds_nothing.
  - apply (adds_then i (f x) (λ st, foldl (λ st x, f x st) st xs)); done.
Qed.

Lemma adds_opt {A} i (f : A → stats → stats)
    (g : A → list (nat * arguments)) (x : option A) :
  option_all A (λ x, adds i (f x) (g x)) x →
  adds i (visit_opt f x) (from_option g [] x).
Proof. destruct 1; simpl; [done|apply adds_nothing]. Qed.

Lemma record_parameters_adds i l a st :
  parameters (record_parameters l a st) !!! i
  = parameters st !!! i ++ names_of i [(l, a)]
  ∧ is_constant_default (record_parameters l a st) = is_constant_default st.
Proof.
  unfold record_parameters, names_of. simpl. rewrite app_nil_r.
  generalize (args_of a). intros xs. revert st.
  induction xs as [|x xs IH]; intros st; simpl.
  - split; [|done]. destruct (decide (l = i)); by rewrite app_nil_r.
  - destruct (IH (add_parameter l (arg_name x) st)) as [-> ->].
    split; [|done]. simpl. rewrite append_at_lookup.
    destruct (decide (l = i)); [|done]. by rewrite <- app_assoc.
Qed.

Lemma record_defaults_adds i l a st :
  is_constant_default (record_defaults l a st) !!! i
  = is_constant_default st !!! i ++ flags_of i [(l, a)]
  ∧ parameters (record_defaults l a st) = parameters st.
Proof.
  unfold record_defaults, flags_of. simpl. rewrite app_nil_r.
  generalize (defaults_of a). intros xs. revert st.
  induction xs as [|x xs IH]; intros st; simpl.
  - split; [|done]. destruct (decide (l = i)); by rewrite app_nil_r.
  - destruct (IH (add_flag l (is_Constant x) st)) as [-> ->].
    split; [|done]. simpl. rewrite append_at_lookup.
    destruct (decide (l = i)); [|done]. by rewrite <- app_assoc.
Qed.

Lemma adds_record i l a :
  adds i (λ st, record_defaults l a (record_parameters l a st)) [(l, a)].
Proof.
  intros st.
  destruct (record_defaults_adds i l a (record_parameters l a st)) as [-> ->].
  destruct (record_parameters_adds i l a st) as [-> ->]. done.
Qed.

Lemma adds_each_opt i (f : node → stats → stats)
    (g : node → list (nat * arguments)) (xs : list (option node)) :
  list_all (option node) (option_all node (λ x, adds i (f x) (g x))) xs →
  adds i (visit_each (visit_opt f) xs) (flat_map (from_option g []) xs).
Proof.
  intros H. apply adds_each.
  induction H as [|x Hx xs _ IH]; constructor; [|done].
  by apply adds_opt.
Qed.

(** The visitor puts on line [i] the parameters and the flags of the
    function definitions of that line, and nothing else. *)
Lemma visit_adds i :
  (∀ n, adds i (visit n) (function_defs n))
  ∧ (∀ a, adds i (visit_arguments a) (function_defs_arguments a))
  ∧ (∀ a, adds i (visit_arg a) (function_defs_arg a)).
Proof.
  apply tree_ind.
  - intros l id ctx st. simpl. rewrite !app_nil_r. by destruct ctx.
  - intros l. apply adds_nothing.
  - intros l name a Ha body Hbody decs Hdecs ret Hret.
    apply (adds_then i
             (λ st, record_defaults l a (record_parameters l a st))
             (λ st, visit_opt visit ret
                      (visit_each visit decs
                         (visit_each visit body (visit_arguments a st))))
             [(l, a)]); [apply adds_record|].
    apply (adds_then i (visit_arguments a)
             (λ st, visit_opt visit ret
                      (visit_each visit decs (visit_each visit body st))));
      [exact Ha|].
    apply (adds_then i (visit_each visit body)
             (λ st, visit_opt visit ret (visit_each visit decs st)));
      [by apply adds_each|].
    apply (adds_then i (visit_each visit decs) (visit_opt visit ret));
      [by apply adds_each|by apply adds_opt].
  - intros l name a Ha body Hbody decs Hdecs ret Hret.
    apply (adds_then i (visit_arguments a)
             (λ st, visit_opt visit ret
                      (visit_each visit decs (visit_each visit body st))));
      [exact Ha|].
    apply (adds_then i (visit_each visit body)
             (λ st, visit_opt visit ret (visit_each visit decs st)));
      [by apply adds_each|].
    apply (adds_then i (visit_each visit decs) (visit_opt visit ret));
      [by apply adds_each|by apply adds_opt].
  - intros children H. by apply adds_each.
  - intros pos Hpos args Hargs va Hva kwo Hkwo kwd Hkwd kwa Hkwa ds Hds.
    apply (adds_then i (visit_each visit_arg pos)
             (λ st, visit_each visit ds
                      (visit_opt visit_arg kwa
                         (visit_each (visit_opt visit) kwd
                            (visit_each visit_arg kwo
                               (visit_opt visit_arg va
                                  (visit_each visit_arg args st)))))));
      [by apply adds_each|].
    apply (adds_then i (visit_each visit_arg args)
             (λ st, visit_each visit ds
                      (visit_opt visit_arg kwa
                         (visit_each (visit_opt visit) kwd
                            (visit_each visit_arg kwo
                               (visit_opt visit_arg va st))))));
      [by apply adds_each|].
    apply (adds_then i (visit_opt visit_arg va)
             (λ st, visit_each visit ds
                      (visit_opt visit_arg kwa
                         (visit_each (visit_opt visit) kwd
                            (visit_each visit_arg kwo st)))));
      [by apply adds_opt|].
    apply (adds_then i (visit_each visit_arg kwo)
             (λ st, visit_each visit ds
                      (visit_opt visit_arg kwa
                         (visit_each (visit_opt visit) kwd st))));
      [by apply adds_each|].
    apply (adds_then i (visit_each (visit_opt visit) kwd)
             (λ st, visit_each visit ds (visit_opt visit_arg kwa st)));
      [by apply adds_each_opt|].
    apply (adds_then i (visit_opt visit_arg kwa) (visit_each visit ds));
      [by apply adds_opt|by apply adds_each].
  - intros name ann H. by apply adds_opt.
Qed.

Lemma names_of_at i fs :
  names_of i fs = names_of i (filter (λ f, f.1 = i) fs).
Proof.
  unfold names_of. induction fs as [|f fs IH]; [done|]. simpl.
  destruct (decide (f.1 = i)) as [E|E].
  - rewrite filter_cons_True by done. simpl.
    rewrite decide_True by done. by f_equal.
  - by rewrite filter_cons_False by done.
Qed.

Lemma flags_of_at i fs :
  flags_of i fs = flags_of i (filter (λ f, f.1 = i) fs).
Proof.
  unfold flags_of. induction fs as [|f fs IH]; [done|]. simpl.
  destruct (decide (f.1 = i)) as [E|E].
  - rewrite filter_cons_True by done. simpl.
    rewrite decide_True by done. by f_equal.
  - by rewrite filter_cons_False by done.
Qed.

(** What [get_mutable_defaults] zips for a line with one definition. *)
Lemma get_mutable_defaults_one tree i a :
  function_defs_at i tree = [(i, a)] →
  get_mutable_defaults (visit tree new_stats) i
  = first_not_constant
      (zip (arg_name <$> args_of a) (is_Constant <$> defaults_of a)).
Proof.
  intros H. unfold get_mutable_defaults.
  destruct (proj1 (visit_adds i) tree new_stats) as [-> ->].
  rewrite names_of_at, flags_of_at. unfold function_defs_at in H. rewrite H.
  unfold names_of, flags_of. simpl.
  destruct (decide (i = i)); [|done].
  by rewrite !lookup_total_empty, !app_nil_r.
Qed.

Lemma first_not_constant_iff (names : list str) (flags : list bool) :
  length flags ≤ length names →
  Forall (λ x, x ≠ []) names →
  first_not_constant (zip names flags) ≠ [] ↔ false ∈ flags.
Proof.
  intros Hlen Hne. revert flags Hlen.
  induction Hne as [|x names Hx _ IH]; intros [|b flags] Hlen; simpl in *.
  - rewrite elem_of_nil. naive_solver.
  - lia.
  - rewrite elem_of_nil. naive_solver.
  - destruct b; simpl.
    + rewrite IH by lia. rewrite elem_of_cons. naive_solver.
    + split; [intros _; apply list_elem_of_here|done].
Qed.

Lemma fires_S012_iff pep n i line :
  S012 ∈ check_line pep n i line ↔ get_mutable_defaults pep i ≠ [].
Proof.
  rewrite elem_of_check_line. unfold s012.
  rewrite elem_of_when, bool_decide_eq_true. simpl. naive_solver.
Qed.

(** C4, as the code has it.  On a line where one function is defined with
    [def], its parameters in [args] being at least as many as its
    positional defaults (as they are when it has no positional-only
    parameters), S012 is printed exactly when one of these defaults is
    not a literal constant.  So [def f(a, b=[]):] gets S012 and
    [def f(a, b=1):] does not. *)
Theorem S012_iff_a_default_is_not_constant :
  (∀ tree before line after a,
     line ≠ [nl] →
     function_defs_at (S (length before)) tree = [(S (length before), a)] →
     length (defaults_of a) ≤ length (args_of a) →
     Forall (λ x, arg_name x ≠ []) (args_of a) →
     S012 ∈ printed_for (visit tree new_stats) before line after
     ↔ ∃ d, d ∈ defaults_of a ∧ is_Constant d = false)
  ∧ (∀ after,
       S012 ∈ printed_for (visit (def_f a_b_list) new_stats) []
                (lit "def f(a, b=[]):" ++ [nl]) after)
  ∧ (∀ after,
       S012 ∉ printed_for (visit (def_f a_b_one) new_stats) []
                (lit "def f(a, b=1):" ++ [nl]) after).
Proof.
  split_and!.
  - intros tree before line after a Hl Hdef Hlen Hnames.
    rewrite printed_for_line by done.
    rewrite fires_S012_iff, (get_mutable_defaults_one _ _ a) by done.
    rewrite first_not_constant_iff.
    + rewrite list_elem_of_fmap. naive_solver.
    + by rewrite !length_fmap.
    + apply Forall_fmap. exact Hnames.
  - intros after. rewrite printed_for_line by done.
    rewrite fires_S012_iff. by vm_compute.
  - intros after. rewrite printed_for_line by done.
    rewrite fires_S012_iff. intros H. by apply H.
Qed.

Lemma S012_iff_a_default_is_not_constant_witness :
  S012 ∈ printed_for (visit (def_f a_b_list) new_stats) []
           (lit "def f(a, b=[]):" ++ [nl]) [lit "    pass" ++ [nl]].
Proof.
  destruct S012_iff_a_default_is_not_constant as [H _].
  apply (H (def_f a_b_list) [] (lit "def f(a, b=[]):" ++ [nl])
           [lit "    pass" ++ [nl]] a_b_list).
  - discriminate.
  - reflexivity.
  - simpl. repeat constructor.
  - repeat constructor; discriminate.
  - exists (Generic []). split; [apply list_elem_of_here|reflexivity].
Defined.

(** C4 as stated fails: in [def f(b=[], /):] the default of the
    positional-only [b] is a list display, not a constant, and S012 is
    not printed, since no parameter of [args] stands next to its flag. *)
Lemma S012_misses_positional_only_default :
  function_defs_at 1 (def_f b_list_posonly) = [(1, b_list_posonly)]
  ∧ (∃ d, d ∈ defaults_of b_list_posonly ∧ is_Constant d = false)
  ∧ S012 ∉ printed_for (visit (def_f b_list_posonly) new_stats) []
             (lit "def f(b=[], /):" ++ [nl]) [lit "    pass" ++ [nl]].
Proof.
  split_and!.
  - reflexivity.
  - exists (Generic []). split; [apply list_elem_of_here|reflexivity].
  - rewrite printed_for_line by done.
    rewrite fires_S012_iff. intros H. by apply H.
Qed.

(** The default of a keyword-only parameter is not looked at either. *)
Lemma S012_misses_keyword_only_default :
  S012 ∉ printed_for (visit (def_f b_list_kwonly) new_stats) []
           (lit "def f(*, b=[]):" ++ [nl]) [lit "    pass" ++ [nl]].
Proof.
  rewrite printed_for_line by done.
  rewrite fires_S012_iff. intros H. by apply H.
Qed.

(** * Further properties of the code *)

(** ** S002, for every line *)

(** S002 is printed for a non-blank line exactly when the line does not
    start with a multiple of four spaces followed by a character that is
    not a space. *)
Theorem S002_iff_not_indented_by_fours pep before line after :
  line ≠ [nl] →
  S002 ∈ printed_for pep before line after ↔ ¬ indented_by_fours line.
Proof. intros Hl. rewrite printed_for_line by done. apply fires_S002. Qed.

Lemma S002_iff_not_indented_by_fours_witness :
  ¬ indented_by_fours (lit "  x = 1" ++ [nl])
  ∧ S002 ∉ printed_for new_stats [] (lit "        x = 1" ++ [nl]) [].
Proof.
  split.
  - apply (S002_iff_not_indented_by_fours new_stats []
             (lit "  x = 1" ++ [nl]) []); [discriminate|].
    vm_compute. apply list_elem_of_here.
  - intros H.
    apply (S002_iff_not_indented_by_fours new_stats []
             (lit "        x = 1" ++ [nl]) []) in H; [|discriminate].
    apply H. exists 2, "x", (lit " = 1" ++ [nl]). split; [reflexivity|discriminate].
Defined.

(** ** S004: the inline comment *)

Lemma lookup_after (pre : str) c post m :
  (pre ++ c :: post) !! (S (length pre) + m) = post !! m.
Proof.
  rewrite lookup_app_r by lia.
  by replace (S (length pre) + m - length pre) with (S m) by lia.
Qed.

Lemma found_inline_comment line :
  found (re_match false re_inline_comment line) = true
  ↔ cramped_comment line.
Proof.
  rewrite re_match_spans. unfold re_inline_comment, cramped_comment. split.
  - intros (j & k & Hstar & k2 & (-> & x & Hx & Hne) & k3 & Hopt
            & -> & y & Hy & ->%same_char_exact).
    apply spans_star_Cls in Hstar as [_ Hstar].
    apply (class_run line (λ x, except "#" x = true)) in Hstar as [_ Hstar];
      [|lia].
    rewrite Nat.sub_0_r, drop_0 in Hstar. apply except_true in Hne.
    exists (take k line), x, (drop (S k) line). split_and!.
    + symmetry. by apply take_drop_middle.
    + intros Hin. rewrite Forall_forall in Hstar.
      apply Hstar in Hin. by apply except_true in Hin.
    + done.
    + destruct Hopt as [(-> & z & Hz & ->%same_char_exact)| ->].
      * exists (drop (S (S (S k))) line). right.
        by rewrite (drop_S _ _ _ Hz), (drop_S _ _ _ Hy).
      * exists (drop (S (S k)) line). left. by rewrite (drop_S _ _ _ Hy).
  - intros (pre & c & post & -> & Hpre & Hc & post' & Hpost).
    assert (Hstar : spans false (pre ++ c :: post) (Star (Cls (except "#")))
                      0 (length pre)).
    { apply spans_star_Cls. split; [lia|]. intros k Hk.
      assert (Hl : is_Some (pre !! k)) by (apply lookup_lt_is_Some; lia).
      destruct Hl as [x Hx]. exists x. split.
      - by rewrite lookup_app_l by lia.
      - apply except_true. intros ->. apply Hpre.
        by eapply list_elem_of_lookup_2. }
    assert (Hc' : spans false (pre ++ c :: post) (Cls (except " "))
                    (length pre) (S (length pre))).
    { split; [done|]. exists c. split; [by apply list_lookup_middle|].
      by apply except_true. }
    destruct Hpost as [->| ->].
    + exists (S (S (length pre))), (length pre). split; [done|].
      exists (S (length pre)). split; [done|].
      exists (S (length pre)). split; [by right|].
      split; [done|]. exists "#". split; [|done].
      by rewrite <- (Nat.add_0_r (S (length pre))), lookup_after.
    + exists (S (S (S (length pre)))), (length pre). split; [done|].
      exists (S (length pre)). split; [done|].
      exists (S (S (length pre))). split.
      * left. split; [done|]. exists " ". split; [|done].
        by rewrite <- (Nat.add_0_r (S (length pre))), lookup_after.
      * split; [done|]. exists "#". split; [|done].
        replace (S (S (length pre))) with (S (length pre) + 1) by lia.
        by rewrite lookup_after.
Qed.

(** S004 is printed for a non-blank line exactly when some character
    other than a space, with no [#] before it, is followed by a [#] at
    once or after one space only.  The character may be the first [#]
    itself: a line starting with two [#] gets S004. *)
Theorem S004_iff_cramped_comment pep before line after :
  line ≠ [nl] →
  S004 ∈ printed_for pep before line after ↔ cramped_comment line.
Proof.
  intros Hl. rewrite printed_for_line by done.
  rewrite elem_of_check_line, <- found_inline_comment. unfold s004.
  rewrite elem_of_when. simpl. naive_solver.
Qed.

Lemma S004_iff_cramped_comment_witness :
  S004 ∈ printed_for new_stats [] (lit "x = 1 # one" ++ [nl]) []
  ∧ S004 ∈ printed_for new_stats [] (lit "## two" ++ [nl]) []
  ∧ ¬ cramped_comment (lit "x = 1  # three" ++ [nl]).
Proof.
  split_and!.
  - apply (S004_iff_cramped_comment new_stats [] (lit "x = 1 # one" ++ [nl]) []);
      [discriminate|].
    exists (lit "x = "), "1", (lit " # one" ++ [nl]).
    split_and!; [reflexivity| |discriminate|].
    + intros H. apply list_elem_of_In in H. simpl in H.
      repeat (destruct H as [H|H]; [discriminate H|]). exact H.
    + exists (lit " one" ++ [nl]). by right.
  - apply (S004_iff_cramped_comment new_stats [] (lit "## two" ++ [nl]) []);
      [discriminate|].
    exists [], "#", (lit "# two" ++ [nl]).
    split_and!; [reflexivity|apply not_elem_of_nil|discriminate|].
    exists (lit " two" ++ [nl]). by left.
  - intros H.
    apply (S004_iff_cramped_comment new_stats []
             (lit "x = 1  # three" ++ [nl]) []) in H; [|discriminate].
    vm_compute in H. inversion H.
Defined.

(** ** S007: the spaces after [class] and [def] *)

Lemma same_chars_exact (w w' : str) :
  Forall2 (λ c x, same_char false c x = true) w w' ↔ w' = w.
Proof.
  revert w'. induction w as [|c w IH]; intros [|x w'].
  - split; [done|constructor].
  - split; [inversion 1|done].
  - split; [inversion 1|done].
  - rewrite Forall2_cons, IH, same_char_exact. naive_solver.
Qed.

Lemma spans_Lit_exact s w i j :
  spans false s (Lit_chars w) i j
  ↔ j = i + length w ∧ take (length w) (drop i s) = w.
Proof.
  rewrite spans_Lit_chars. split.
  - intros (-> & w' & <- & _ & Hw%same_chars_exact). done.
  - intros (-> & Hw). split; [done|]. exists w. split_and!; [done..|].
    by apply same_chars_exact.
Qed.

Lemma found_construction_spaces line :
  found (re_match false re_construction_spaces line) = true
  ↔ two_spaces_after_keyword line.
Proof.
  rewrite re_match_spans.
  unfold re_construction_spaces, two_spaces_after_keyword, space. split.
  - intros (j & k0 & [-> _] & k & Hstar & k2 & Halt
            & k3 & (-> & x & Hx & ->%same_char_exact)
            & k4 & (-> & y & Hy & ->%same_char_exact) & _).
    apply spans_star_Cls in Hstar as [_ Hstar].
    assert (Hsp : ∀ m, 0 ≤ m < k → ∃ x, line !! m = Some x ∧ x = " ").
    { intros m Hm. destruct (Hstar m Hm) as (z & Hz & ->%only_true). eauto. }
    apply (class_run line (λ x, x = " ")) in Hsp as [Hlen Hsp]; [|lia].
    rewrite Nat.sub_0_r, drop_0 in Hsp, Hlen.
    apply Forall_eq_replicate in Hsp.
    rewrite length_take, Nat.min_l in Hsp by done.
    assert (Hkw : ∃ keyword, (keyword = lit "class" ∨ keyword = lit "def")
                             ∧ k2 = k + length keyword
                             ∧ take (length keyword) (drop k line) = keyword).
    { destruct Halt as [[-> H]%spans_Lit_exact|[-> H]%spans_Lit_exact];
        eexists; (split; [|split; [reflexivity|exact H]]); auto. }
    destruct Hkw as (keyword & Hkeyword & -> & Htake).
    exists k, keyword, (drop (S (S (k + length keyword))) line).
    split; [|done].
    rewrite <- (take_drop k line) at 1. rewrite <- Hsp. f_equal.
    rewrite <- (take_drop (length keyword) (drop k line)) at 1.
    rewrite Htake. f_equal. rewrite drop_drop.
    by rewrite (drop_S _ _ _ Hx), (drop_S _ _ _ Hy).
  - intros (k & keyword & rest & -> & Hkeyword).
    set (line := replicate k " " ++ keyword ++ " " :: " " :: rest).
    assert (Hdrop : drop k line = keyword ++ " " :: " " :: rest).
    { unfold line. rewrite drop_app_length'; [done|].
      symmetry. apply length_replicate. }
    assert (Hat : ∀ m, line !! (k + length keyword + m)
                       = (" " :: " " :: rest) !! m).
    { intros m. rewrite <- Nat.add_assoc, <- lookup_drop, Hdrop.
      rewrite lookup_app_r by lia. f_equal. lia. }
    exists (S (S (k + length keyword))), 0. split; [done|].
    exists k. split.
    { apply spans_star_Cls. split; [lia|]. intros m Hm. exists " ".
      split; [|done]. unfold line.
      rewrite lookup_app_l by (rewrite length_replicate; lia).
      apply lookup_replicate. split; [done|lia]. }
    exists (k + length keyword). split.
    { assert (H : spans false line (Lit_chars keyword) k (k + length keyword)).
      { apply spans_Lit_exact. split; [done|].
        rewrite Hdrop. apply take_app_length. }
      destruct Hkeyword as [->| ->]; [by left|by right]. }
    exists (S (k + length keyword)). split.
    { split; [done|]. exists " ". split; [|done].
      by rewrite <- (Nat.add_0_r (k + length keyword)), Hat. }
    exists (S (S (k + length keyword))). split; [|apply rtc_refl].
    split; [done|]. exists " ". split; [|done].
    replace (S (k + length keyword)) with (k + length keyword + 1) by lia.
    by rewrite Hat.
Qed.

(** S007 is printed for a non-blank line exactly when the line is made
    of spaces, then [class] or [def], then two spaces at least. *)
Theorem S007_iff_two_spaces_after_keyword pep before line after :
  line ≠ [nl] →
  S007 ∈ printed_for pep before line after ↔ two_spaces_after_keyword line.
Proof.
  intros Hl. rewrite printed_for_line by done.
  rewrite elem_of_check_line, <- found_construction_spaces. unfold s007.
  rewrite elem_of_when. simpl. naive_solver.
Qed.

Lemma S007_iff_two_spaces_after_keyword_witness :
  S007 ∈ printed_for new_stats [] (lit "    def  f():" ++ [nl]) []
  ∧ ¬ two_spaces_after_keyword (lit "def f():" ++ [nl]).
Proof.
  split.
  - apply (S007_iff_two_spaces_after_keyword new_stats []
             (lit "    def  f():" ++ [nl]) []); [discriminate|].
    exists 4, (lit "def"), (lit "f():" ++ [nl]). split; [reflexivity|by right].
  - intros H.
    apply (S007_iff_two_spaces_after_keyword new_stats []
             (lit "def f():" ++ [nl]) []) in H; [|discriminate].
    vm_compute in H. inversion H.
Defined.

(** ** What the visitor collects *)

(** Visiting a tree appends, on every line, the names of the [args] and
    the flags of the [defaults] of the functions defined with [def] on
    that line, in the order of the visit, to what the tables held; a
    nested function is recorded on its own line, and an [async def], the
    positional-only and keyword-only parameters, [*args] and [**kwargs]
    are not recorded. *)
Theorem visit_records_definitions tree st i :
  get_parameters (visit tree st) i
  = get_parameters st i ++ names_of i (function_defs tree)
  ∧ is_constant_default (visit tree st) !!! i
    = is_constant_default st !!! i ++ flags_of i (function_defs tree).
Proof. apply (proj1 (visit_adds i) tree st). Qed.

Lemma stores_nothing i : stores i (λ st, st) [].
Proof. intros st. by rewrite app_nil_r. Qed.

Lemma stores_then i F1 F2 vs1 vs2 :
  stores i F1 vs1 → stores i F2 vs2 →
  stores i (λ st, F2 (F1 st)) (vs1 ++ vs2).
Proof. intros H1 H2 st. by rewrite H2, H1, app_assoc. Qed.

Lemma stores_each {A} i (f : A → stats → stats) (g : A → list str)
    (xs : list A) :
  list_all A (λ x, stores i (f x) (g x)) xs →
  stores i (visit_each f xs) (flat_map g xs).
Proof.
  unfold visit_each. induction 1 as [|x Hx xs _ IH]; simpl.
  - apply stores_nothing.
  - apply (stores_then i (f x) (λ st, foldl (λ st x, f x st) st xs)); done.
Qed.

Lemma stores_opt {A} i (f : A → stats → stats) (g : A → list str)
    (x : option A) :
  option_all A (λ x, stores i (f x) (g x)) x →
  stores i (visit_opt f x) (from_option g [] x).
Proof. destruct 1; simpl; [done|apply stores_nothing]. Qed.

Lemma stores_each_opt i (f : node → stats → stats) (g : node → list str)
    (xs : list (option node)) :
  list_all (option node) (option_all node (λ x, stores i (f x) (g x))) xs →
  stores i (visit_each (visit_opt f) xs) (flat_map (from_option g []) xs).
Proof.
  intros H. apply stores_each.
  induction H as [|x Hx xs _ IH]; constructor; [|done].
  by apply stores_opt.
Qed.

Lemma record_keeps_variables l a st :
  variables (record_defaults l a (record_parameters l a st)) = variables st.
Proof.
  unfold record_defaults, record_parameters.
  generalize (defaults_of a). generalize (args_of a). intros xs ds.
  revert st. induction xs as [|x xs IH]; intros st; simpl.
  - revert st. induction ds as [|d ds IHd]; intros st; simpl; [done|].
    by rewrite IHd.
  - by rewrite IH.
Qed.

Lemma stores_record i l a :
  stores i (λ st, record_defaults l a (record_parameters l a st)) [].
Proof. intros st. by rewrite record_keeps_variables, app_nil_r. Qed.

Lemma visit_stores i :
  (∀ n, stores i (visit n) (stored_at i n))
  ∧ (∀ a, stores i (visit_arguments a) (stored_at_arguments i a))
  ∧ (∀ a, stores i (visit_arg a) (stored_at_arg i a)).
Proof.
  apply tree_ind.
  - intros l id ctx st. destruct ctx; simpl; rewrite ?app_nil_r; try done.
    rewrite append_at_lookup. destruct (decide (l = i)); [done|].
    by rewrite app_nil_r.
  - intros l. apply stores_nothing.
  - intros l name a Ha body Hbody decs Hdecs ret Hret.
    apply (stores_then i
             (λ st, record_defaults l a (record_parameters l a st))
             (λ st, visit_opt visit ret
                      (visit_each visit decs
                         (visit_each visit body (visit_arguments a st))))
             []); [apply stores_record|].
    apply (stores_then i (visit_arguments a)
             (λ st, visit_opt visit ret
                      (visit_each visit decs (visit_each visit body st))));
      [exact Ha|].
    apply (stores_then i (visit_each visit body)
             (λ st, visit_opt visit ret (visit_each visit decs st)));
      [by apply stores_each|].
    apply (stores_then i (visit_each visit decs) (visit_opt visit ret));
      [by apply stores_each|by apply stores_opt].
  - intros l name a Ha body Hbody decs Hdecs ret Hret.
    apply (stores_then i (visit_arguments a)
             (λ st, visit_opt visit ret
                      (visit_each visit decs (visit_each visit body st))));
      [exact Ha|].
    apply (stores_then i (visit_each visit body)
             (λ st, visit_opt visit ret (visit_each visit decs st)));
      [by apply stores_each|].
    apply (stores_then i (visit_each visit decs) (visit_opt visit ret));
      [by apply stores_each|by apply stores_opt].
  - intros children H. by apply stores_each.
  - intros pos Hpos args Hargs va Hva kwo Hkwo kwd Hkwd kwa Hkwa ds Hds.
    apply (stores_then i (visit_each visit_arg pos)
             (λ st, visit_each visit ds
                      (visit_opt visit_arg kwa
                         (visit_each (visit_opt visit) kwd
                            (visit_each visit_arg kwo
                               (visit_opt visit_arg va
                                  (visit_each visit_arg args st)))))));
      [by apply stores_each|].
    apply (stores_then i (visit_each visit_arg args)
             (λ st, visit_each visit ds
                      (visit_opt visit_arg kwa
                         (visit_each (visit_opt visit) kwd
                            (visit_each visit_arg kwo
                               (visit_opt visit_arg va st))))));
      [by apply stores_each|].
    apply (stores_then i (visit_opt visit_arg va)
             (λ st, visit_each visit ds
                      (visit_opt visit_arg kwa
                         (visit_each (visit_opt visit) kwd
                            (visit_each visit_arg kwo st)))));
      [by apply stores_opt|].
    apply (stores_then i (visit_each visit_arg kwo)
             (λ st, visit_each visit ds
                      (visit_opt visit_arg kwa
                         (visit_each (visit_opt visit) kwd st))));
      [by apply stores_each|].
    apply (stores_then i (visit_each (visit_opt visit) kwd)
             (λ st, visit_each visit ds (visit_opt visit_arg kwa st)));
      [by apply stores_each_opt|].
    apply (stores_then i (visit_opt visit_arg kwa) (visit_each visit ds));
      [by apply stores_opt|by apply stores_each].
  - intros name ann H. by apply stores_opt.
Qed.

(** Visiting a tree appends, on every line, the names that stand in
    [Store] context on that line, in the order of the visit, to the
    variables the table held; names that are only read are not recorded,
    and it makes no difference whether the name is bound inside a
    function or not. *)
Theorem visit_records_stored_names tree st i :
  get_variables (visit tree st) i = get_variables st i ++ stored_at i tree.
Proof. apply (proj1 (visit_stores i) tree st). Qed.

(** ** S010 and S011: the names of parameters and variables *)

Lemma not_snake_false x : not_snake x = false ↔ starts_snake x.
Proof.
  unfold not_snake, starts_snake. rewrite negb_false_iff.
  apply snake_test_first_character.
Qed.

Lemma not_snake_true x : not_snake x = true ↔ ¬ starts_snake x.
Proof.
  rewrite <- not_snake_false. destruct (not_snake x); naive_solver.
Qed.

Lemma first_offender_Some xs p :
  first_offender xs = Some p ↔ first_not_snake xs p.
Proof.
  unfold first_offender, first_not_snake.
  induction xs as [|x xs IH]; simpl.
  - split; [done|]. intros ([|??] & ? & ? & _); done.
  - destruct (not_snake x) eqn:E.
    + split.
      * intros [= ->]. exists [], xs. split_and!; [done|constructor|].
        by apply not_snake_true.
      * intros ([|y l1] & l2 & Heq & Hl1 & Hp); simplify_eq/=; [done|].
        apply Forall_cons in Hl1 as [Hx%not_snake_false _]. congruence.
    + rewrite IH. split.
      * intros (l1 & l2 & -> & Hl1 & Hp). exists (x :: l1), l2.
        split_and!; [done| |done]. constructor; [|done].
        by apply not_snake_false.
      * intros ([|y l1] & l2 & Heq & Hl1 & Hp); simplify_eq/=.
        -- apply not_snake_false in E. done.
        -- apply Forall_cons in Hl1 as [_ Hl1]. by exists l1, l2.
Qed.

(** S010 is printed for a non-blank line with the parameter [p] exactly
    when [p] is the first, among the [args] of the functions defined with
    [def] on that line, that does not start with a lowercase letter or an
    underscore; later offenders of the line are not reported. *)
Theorem S010_reports_first_offending_parameter tree before line after p :
  line ≠ [nl] →
  S010 p ∈ printed_for (visit tree new_stats) before line after
  ↔ first_not_snake (names_of (S (length before)) (function_defs tree)) p.
Proof.
  intros Hl. rewrite printed_for_line by done.
  rewrite <- first_offender_Some.
  destruct (proj1 (visit_adds (S (length before))) tree new_stats) as [Hp _].
  rewrite elem_of_check_line. unfold s010, get_parameters.
  rewrite Hp. simpl. rewrite lookup_total_empty. simpl.
  destruct (first_offender _) as [q|].
  - rewrite list_elem_of_singleton. naive_solver.
  - rewrite elem_of_nil. naive_solver.
Qed.

Lemma S010_reports_first_offending_parameter_witness :
  S010 (lit "B")
  ∈ printed_for (visit def_f_a_B_C new_stats) []
      (lit "def f(a, B, C):" ++ [nl]) [lit "    Total = a" ++ [nl]].
Proof.
  apply (S010_reports_first_offending_parameter def_f_a_B_C []
           (lit "def f(a, B, C):" ++ [nl]) [lit "    Total = a" ++ [nl]]);
    [discriminate|].
  exists [lit "a"], [lit "C"]. split_and!; [reflexivity| |].
  - repeat constructor. by exists "a", [].
  - intros (c & rest & [= <- _] & H). discriminate H.
Defined.

(** S011 is printed for a non-blank line with the variable [v] exactly
    when [v] is the first of the names in [Store] context on that line
    that does not start with a lowercase letter or an underscore. *)
Theorem S011_reports_first_offending_variable tree before line after v :
  line ≠ [nl] →
  S011 v ∈ printed_for (visit tree new_stats) before line after
  ↔ first_not_snake (stored_at (S (length before)) tree) v.
Proof.
  intros Hl. rewrite printed_for_line by done.
  rewrite <- first_offender_Some.
  pose proof (proj1 (visit_stores (S (length before))) tree new_stats) as Hv.
  rewrite elem_of_check_line. unfold s011, get_variables.
  rewrite Hv. simpl. rewrite lookup_total_empty. simpl.
  destruct (first_offender _) as [q|].
  - rewrite list_elem_of_singleton. naive_solver.
  - rewrite elem_of_nil. naive_solver.
Qed.

Lemma S011_reports_first_offending_variable_witness :
  S011 (lit "Total")
  ∈ printed_for (visit def_f_a_B_C new_stats) [lit "def f(a, B, C):" ++ [nl]]
      (lit "    Total = a" ++ [nl]) [].
Proof.
  apply (S011_reports_first_offending_variable def_f_a_B_C
           [lit "def f(a, B, C):" ++ [nl]] (lit "    Total = a" ++ [nl]) []);
    [discriminate|].
  exists [], []. split_and!; [reflexivity|constructor|].
  intros (c & rest & [= <- _] & H). discriminate H.
Defined.

(** ** The name [get_mutable_defaults] returns *)

Lemma first_not_constant_at (names : list str) (flags : list bool) k :
  (∀ j, j < k → flags !! j = Some true) →
  flags !! k = Some false →
  first_not_constant (zip names flags) = default [] (names !! k).
Proof.
  revert names flags. induction k as [|k IH]; intros names flags Hbefore Hk.
  - destruct flags as [|b flags]; [done|]. injection Hk as ->.
    by destruct names.
  - destruct flags as [|b flags]; [done|].
    assert (b = true) as -> by (specialize (Hbefore 0 ltac:(lia)); naive_solver).
    destruct names as [|x names]; [done|]. simpl.
    apply IH; [|done]. intros j Hj. apply (Hbefore (S j)). lia.
Qed.

Lemma first_not_constant_all (names : list str) (flags : list bool) :
  Forall (λ b, b = true) flags → first_not_constant (zip names flags) = [].
Proof.
  intros H. revert names.
  induction H as [|b flags -> _ IH]; intros [|x names]; simpl; auto.
Qed.

(** On a line with one function definition, [get_mutable_defaults]
    returns the empty string when every default is a constant; when the
    first default that is not a constant is the [k]-th of [defaults], it
    returns the name of the [k]-th of [args], counted from the front
    (which is not the parameter the default belongs to when parameters
    without default come first), and the empty string when [args] has no
    [k]-th parameter. *)
Theorem get_mutable_defaults_returns_parameter_at_same_index tree i a :
  function_defs_at i tree = [(i, a)] →
  (Forall (λ d, is_Constant d = true) (defaults_of a) →
   get_mutable_defaults (visit tree new_stats) i = [])
  ∧ (∀ k d,
       (∀ j d', j < k → defaults_of a !! j = Some d' → is_Constant d' = true) →
       defaults_of a !! k = Some d → is_Constant d = false →
       get_mutable_defaults (visit tree new_stats) i
       = default [] ((arg_name <$> args_of a) !! k)).
Proof.
  intros Hdef. rewrite (get_mutable_defaults_one _ _ a) by done. split.
  - intros H. apply first_not_constant_all. by apply Forall_fmap.
  - intros k d Hbefore Hk Hd. apply first_not_constant_at.
    + intros j Hj.
      assert (Hl : is_Some (defaults_of a !! j)).
      { apply lookup_lt_is_Some. apply lookup_lt_Some in Hk. lia. }
      destruct Hl as [d' Hd']. rewrite list_lookup_fmap, Hd'. simpl.
      f_equal. by eapply Hbefore.
    + by rewrite list_lookup_fmap, Hk, <- Hd.
Qed.

Lemma get_mutable_defaults_returns_parameter_at_same_index_witness :
  get_mutable_defaults (visit (def_f a_b_list) new_stats) 1 = lit "a"
  ∧ get_mutable_defaults (visit (def_f a_b_one) new_stats) 1 = [].
Proof.
  split.
  - destruct (get_mutable_defaults_returns_parameter_at_same_index
                (def_f a_b_list) 1 a_b_list eq_refl) as [_ H].
    apply (H 0 (Generic [])); [intros j d' Hj; lia|reflexivity..].
  - destruct (get_mutable_defaults_returns_parameter_at_same_index
                (def_f a_b_one) 1 a_b_one eq_refl) as [H _].
    apply H. repeat constructor.
Defined.

(** ** Lines the tree says nothing about *)

(** For a non-blank line on which the tree has no function definition
    and no name in [Store] context, the tables are read as empty lists
    and none of S010, S011 and S012 is printed. *)
Theorem no_tree_issue_without_records tree before line after :
  line ≠ [nl] →
  function_defs_at (S (length before)) tree = [] →
  stored_at (S (length before)) tree = [] →
  Forall (λ e, code_of e ≤ 9)
         (printed_for (visit tree new_stats) before line after).
Proof.
  intros Hl Hdefs Hvars. rewrite printed_for_line by done.
  set (i := S (length before)) in *.
  destruct (proj1 (visit_adds i) tree new_stats) as [Hp Hf].
  pose proof (proj1 (visit_stores i) tree new_stats) as Hv.
  rewrite names_of_at in Hp. rewrite flags_of_at in Hf.
  unfold function_defs_at in Hdefs. rewrite Hdefs in Hp, Hf.
  rewrite Hvars in Hv.
  change (parameters new_stats) with (∅ : gmap nat (list str)) in Hp.
  change (is_constant_default new_stats) with (∅ : gmap nat (list bool)) in Hf.
  change (variables new_stats) with (∅ : gmap nat (list str)) in Hv.
  rewrite lookup_total_empty in Hp. rewrite lookup_total_empty in Hf.
  rewrite lookup_total_empty in Hv. simpl in Hp, Hf, Hv.
  apply Forall_forall. intros e He. apply elem_of_check_line in He.
  unfold s010, s011, s012, get_parameters, get_variables,
    get_mutable_defaults in He.
  rewrite Hp, Hf, Hv in He. simpl in He.
  destruct He as [[? _]|[[? _]|[[? _]|[[? _]|[[? _]|[[? _]|
    [[? _]|[[? _]|[[? _]|[[_ He]|[[_ He]|[_ He]]]]]]]]]]]]; try lia;
    by apply elem_of_nil in He.
Qed.

Lemma no_tree_issue_without_records_witness :
  Forall (λ e, code_of e ≤ 9)
         (printed_for (visit x_is_five_printed new_stats)
            [lit "x = 5" ++ [nl]] (lit "print(x)" ++ [nl]) []).
Proof.
  apply (no_tree_issue_without_records x_is_five_printed
           [lit "x = 5" ++ [nl]] (lit "print(x)" ++ [nl]) []);
    [discriminate|reflexivity|reflexivity].
Defined.

Lemma S009_printed_iff_witness :
  S009 (lit "Print2")
  ∈ printed_for new_stats [] (lit "    def Print2(x):" ++ [nl]) [].
Proof.
  apply (S009_printed_iff new_stats [] (lit "    def Print2(x):" ++ [nl]) []
           (lit "Print2")); [discriminate|].
  split; [reflexivity|].
  intros (c & rest & [= <- _] & H). discriminate H.
Defined.

Lemma S008_printed_iff_witness :
  S008 (lit "user")
  ∈ printed_for new_stats [] (lit "class user:" ++ [nl]) [].
Proof.
  apply (S008_printed_iff new_stats [] (lit "class user:" ++ [nl]) []
           (lit "user")); [discriminate|].
  split; [reflexivity|].
  intros (c1 & c2 & rest & [= <- _ _] & H & _). discriminate H.
Defined.

(** ** The lines the diagnostics name *)

Lemma line_position (lines : list str) i :
  i ≠ 0 → i ≤ length lines →
  ∃ before line after, lines = before ++ line :: after ∧ i = S (length before).
Proof.
  intros H0 Hi.
  assert (Hlt : i - 1 < length lines) by lia.
  apply lookup_lt_is_Some in Hlt as [line Hline].
  exists (take (i - 1) lines), line, (drop (S (i - 1)) lines). split.
  - symmetry. by apply take_drop_middle.
  - rewrite length_take. lia.
Qed.

Lemma elem_of_issues_at (out : list (nat * issue)) d :
  d ∈ out → d.2 ∈ issues_at out d.1.
Proof.
  intros H. unfold issues_at. apply list_elem_of_fmap. exists d.
  split; [done|]. by apply list_elem_of_filter.
Qed.

(** Every diagnostic names a line of the file, counted from 1, and that
    line is not blank. *)
Theorem diagnostics_name_non_blank_lines pep lines d :
  d ∈ printed (loop pep loop_start 1 lines) →
  1 ≤ d.1 ≤ length lines
  ∧ ∃ line, lines !! (d.1 - 1) = Some line ∧ line ≠ [nl].
Proof.
  intros Hd. apply elem_of_issues_at in Hd.
  destruct (issues_at_cases pep lines d.1) as [E|(n & line & Hl & Hline & _)].
  - simpl in E. rewrite E in Hd. by apply elem_of_nil in Hd.
  - split; [|by exists line].
    destruct (decide (d.1 = 0 ∨ length lines < d.1)) as [Ho|Hin]; [|lia].
    rewrite (issues_at_outside _ _ _ Ho) in Hd. by apply elem_of_nil in Hd.
Qed.

Lemma diagnostics_name_non_blank_lines_witness :
  1 ≤ 2 ≤ 2
  ∧ ∃ line, [[nl]; lit "x = 5;" ++ [nl]] !! (2 - 1) = Some line ∧ line ≠ [nl].
Proof.
  apply (diagnostics_name_non_blank_lines new_stats
           [[nl]; lit "x = 5;" ++ [nl]] (2, S003)).
  vm_compute. apply list_elem_of_here.
Defined.

(** ** S006 and the lines before *)

Lemma blank_run_snoc before line :
  blank_run (before ++ [line])
  = if bool_decide (line = [nl]) then S (blank_run before) else 0.
Proof. unfold blank_run. by rewrite reverse_snoc. Qed.

Lemma blank_run_bound before : blank_run before ≤ length before.
Proof.
  induction before as [|line before IH] using rev_ind; [done|].
  rewrite blank_run_snoc, length_app. simpl.
  destruct (bool_decide (line = [nl])); lia.
Qed.

Lemma blank_run_lines before n :
  n < blank_run before → before !! (length before - 1 - n) = Some [nl].
Proof.
  revert n. induction before as [|line before IH] using rev_ind; intros n.
  - unfold blank_run. simpl. lia.
  - rewrite blank_run_snoc, length_app. simpl.
    destruct (bool_decide_reflect (line = [nl])) as [->|]; [|lia].
    intros Hn. destruct n as [|n].
    + rewrite lookup_app_r by lia.
      by replace (length before + 1 - 1 - 0 - length before) with 0 by lia.
    + pose proof (blank_run_bound before).
      rewrite lookup_app_l by lia.
      replace (length before + 1 - 1 - S n) with (length before - 1 - n)
        by lia.
      apply IH. lia.
Qed.

(** When S006 is printed for line [i], the file has three lines or more
    before it and the three lines right before it are blank; so S006 is
    never printed for one of the first three lines of a file. *)
Theorem S006_only_after_three_blank_lines pep lines i :
  fires 6 (issues_at (printed (loop pep loop_start 1 lines)) i) →
  4 ≤ i ≤ length lines
  ∧ ∀ j, i - 4 ≤ j < i - 1 → lines !! j = Some [nl].
Proof.
  intros H.
  destruct (decide (i = 0 ∨ length lines < i)) as [Ho|Hin].
  { rewrite (issues_at_outside _ _ _ Ho) in H.
    unfold fires in H. by apply elem_of_nil in H. }
  destruct (line_position lines i) as (before & line & after & -> & ->);
    [lia..|].
  destruct (decide (line = [nl])) as [->|Hl].
  { rewrite issues_at_blank in H. unfold fires in H.
    by apply elem_of_nil in H. }
  rewrite issues_at_line in H by done. apply fires_S006 in H.
  pose proof (blank_run_bound before) as Hb.
  split; [rewrite length_app; simpl; lia|].
  intros j Hj. rewrite lookup_app_l by lia.
  replace j with (length before - 1 - (length before - 1 - j)) by lia.
  apply blank_run_lines. lia.
Qed.

Lemma S006_only_after_three_blank_lines_witness :
  4 ≤ 4 ≤ 4
  ∧ ∀ j, 4 - 4 ≤ j < 4 - 1 →
         [[nl]; [nl]; [nl]; lit "x = 1" ++ [nl]] !! j = Some [nl].
Proof.
  apply (S006_only_after_three_blank_lines new_stats
           [[nl]; [nl]; [nl]; lit "x = 1" ++ [nl]] 4).
  vm_compute. apply list_elem_of_here.
Defined.
